(** * Peroxidecast: mount registry, connector attach and relay, admin and
      static-file handlers.

    Shallow embedding of [src/state.rs], [src/net/connector.rs] and
    [src/net/socket.rs].  Rust [String]/[&str] values are modelled as
    Rocq [string]s whose [ascii] characters are the UTF-8 bytes; header
    values ([&[u8]]) are raw byte strings of the same type.  Tokio
    channels are modelled by an explicit channel store (see [World]). *)

From stdpp Require Import base gmap strings list fin_maps.
From Stdlib Require Import ZArith Ascii String.

Open Scope string_scope.

(* ------------------------------------------------------------------ *)
(** ** Byte-level string helpers *)

Definition byte_of (c : ascii) : nat := nat_of_ascii c.

Definition in_range (lo hi : nat) (c : ascii) : bool :=
  Nat.leb lo (byte_of c) && Nat.leb (byte_of c) hi.

Definition cont (c : ascii) : bool := in_range 128 191 c.

(** [std::str::from_utf8] succeeds exactly on well-formed UTF-8:
    no overlong forms, no surrogates, nothing above U+10FFFF. *)
Fixpoint utf8_valid (s : string) : bool :=
  match s with
  | EmptyString => true
  | String c r =>
      if Nat.ltb (byte_of c) 128 then utf8_valid r
      else if in_range 194 223 c then
        match r with
        | String c1 r1 => cont c1 && utf8_valid r1
        | EmptyString => false
        end
      else if in_range 224 239 c then
        match r with
        | String c1 (String c2 r2) =>
            (if Nat.eqb (byte_of c) 224 then in_range 160 191 c1
             else if Nat.eqb (byte_of c) 237 then in_range 128 159 c1
             else cont c1) && cont c2 && utf8_valid r2
        | _ => false
        end
      else if in_range 240 244 c then
        match r with
        | String c1 (String c2 (String c3 r3)) =>
            (if Nat.eqb (byte_of c) 240 then in_range 144 191 c1
             else if Nat.eqb (byte_of c) 244 then in_range 128 143 c1
             else cont c1) && cont c2 && cont c3 && utf8_valid r3
        | _ => false
        end
      else false
  end.

Definition from_utf8 (s : string) : option string :=
  if utf8_valid s then Some s else None.

Fixpoint starts_with (p s : string) : bool :=
  match p, s with
  | EmptyString, _ => true
  | String a p', String b s' => if ascii_dec a b then starts_with p' s' else false
  | String _ _, EmptyString => false
  end.

(** [&s[n..]] (callers guarantee [n] is within bounds). *)
Fixpoint str_drop (n : nat) (s : string) : string :=
  match n, s with
  | O, _ => s
  | S n', String _ s' => str_drop n' s'
  | S _, EmptyString => EmptyString
  end.

(** [str::split] on a one-character pattern: [""] splits to [[""]] and a
    trailing separator yields a trailing empty piece. *)
Fixpoint split_on (sep : ascii) (s : string) : list string :=
  match s with
  | EmptyString => [EmptyString]
  | String c r =>
      match split_on sep r with
      | [] => []
      | cur :: rest =>
          if ascii_dec c sep then EmptyString :: cur :: rest
          else String c cur :: rest
      end
  end.

(* ------------------------------------------------------------------ *)
(** ** [i32::from_str] and [Display for i32] *)

Definition digit_val (c : ascii) : option Z :=
  if in_range 48 57 c then Some (Z.of_nat (byte_of c - 48)) else None.

Fixpoint parse_digits (s : string) (acc : Z) : option Z :=
  match s with
  | EmptyString => Some acc
  | String c r =>
      match digit_val c with
      | Some d => parse_digits r (acc * 10 + d)%Z
      | None => None
      end
  end.

Definition i32_min : Z := (- 2 ^ 31)%Z.
Definition i32_max : Z := (2 ^ 31 - 1)%Z.

(** [<i32 as FromStr>::from_str]: optional sign, at least one ASCII
    digit, value within range (checked arithmetic in the source). *)
Definition parse_i32 (s : string) : option Z :=
  let '(neg, ds) :=
    match s with
    | String "+" r => (false, r)
    | String "-" r => (true, r)
    | _ => (false, s)
    end in
  match ds with
  | EmptyString => None
  | _ =>
      match parse_digits ds 0 with
      | Some v =>
          let z := if neg then (- v)%Z else v in
          if (i32_min <=? z)%Z && (z <=? i32_max)%Z then Some z else None
      | None => None
      end
  end.

Definition digit_char (n : N) : ascii := ascii_of_N (48 + n)%N.

Fixpoint dec_go (fuel : nat) (n : N) (acc : string) : string :=
  match fuel with
  | O => acc
  | S f =>
      let acc' := String (digit_char (n mod 10)%N) acc in
      if (n / 10 =? 0)%N then acc' else dec_go f (n / 10)%N acc'
  end.

(** [format!("{}", v)] for an integer: the binary size bounds the number
    of decimal digits, so the fuel never runs out. *)
Definition dec_of_N (n : N) : string := dec_go (S (N.size_nat n)) n EmptyString.

Definition z_to_dec (z : Z) : string :=
  if (z <? 0)%Z then "-" +:+ dec_of_N (Z.to_N (- z)%Z) else dec_of_N (Z.to_N z).

(* ------------------------------------------------------------------ *)
(** ** HTTP headers and [IceMeta] (state.rs) *)

(** An [httparse::Header]: the name as parsed, the value as raw bytes. *)
Record Header := mkHeader { h_name : string; h_value : string }.

(** [headers.iter().find(|h| h.name == name).map(|h| h.value)] *)
Fixpoint find_value (hs : list Header) (name : string) : option string :=
  match hs with
  | [] => None
  | h :: hs' => if String.eqb (h_name h) name then Some (h_value h) else find_value hs' name
  end.

Record IceMeta := mkIceMeta {
  public : option Z;
  name : option string;
  description : option string;
  genre : option string;
  url : option string;
  irc : option string;
  aim : option string;
  icq : option string;
  audio_info : option string
}.

Definition IceMeta_default : IceMeta :=
  mkIceMeta None None None None None None None None None.

(** One [extract_val!] expansion: the field keeps its previous value
    unless the first header with that name is non-empty UTF-8 that parses. *)
Definition extract_val {T} (parse : string -> option T) (hs : list Header)
    (hname : string) (old : option T) : option T :=
  match find_value hs hname with
  | Some value =>
      match from_utf8 value with
      | Some s =>
          if String.eqb s "" then old
          else match parse s with Some v => Some v | None => old end
      | None => old
      end
  | None => old
  end.

Definition parse_string (s : string) : option string := Some s.

(** [impl From<&[Header]> for IceMeta] *)
Definition IceMeta_from (hs : list Header) : IceMeta :=
  let me := IceMeta_default in
  {| public := extract_val parse_i32 hs "ice-public" (public me);
     name := extract_val parse_string hs "ice-name" (name me);
     description := extract_val parse_string hs "ice-description" (description me);
     genre := extract_val parse_string hs "ice-genre" (genre me);
     url := extract_val parse_string hs "ice-url" (url me);
     irc := extract_val parse_string hs "ice-irc" (irc me);
     aim := extract_val parse_string hs "ice-aim" (aim me);
     icq := extract_val parse_string hs "ice-icq" (icq me);
     audio_info := extract_val parse_string hs "ice-audio-info" (audio_info me) |}.

(** The eight [String] fields of [IceMeta] with the header each one is
    read from. *)
Definition ice_string_fields : list (string * (IceMeta -> option string)) :=
  [("ice-name", name); ("ice-description", description); ("ice-genre", genre);
   ("ice-url", url); ("ice-irc", irc); ("ice-aim", aim); ("ice-icq", icq);
   ("ice-audio-info", audio_info)].

(** One [append!] expansion: [format!("{}:{}", name, value)]. *)
Definition append_hdr (hname : string) (v : option string) (vec : list string) : list string :=
  match v with
  | Some value => app vec [hname +:+ ":" +:+ value]
  | None => vec
  end.

(** [IceMeta::as_headers] *)
Definition as_headers (m : IceMeta) : list string :=
  let vec := [] in
  let vec := append_hdr "icy-pub" (z_to_dec <$> public m) vec in
  let vec := append_hdr "icy-name" (name m) vec in
  let vec := append_hdr "icy-description" (description m) vec in
  let vec := append_hdr "icy-genre" (genre m) vec in
  let vec := append_hdr "icy-url" (url m) vec in
  let vec := append_hdr "icy-irc" (irc m) vec in
  let vec := append_hdr "icy-aim" (aim m) vec in
  let vec := append_hdr "icy-icq" (icq m) vec in
  let vec := append_hdr "ice-audio-info" (audio_info m) vec in
  vec.

Example as_headers_ex :
  as_headers (IceMeta_from [mkHeader "ice-name" "X"; mkHeader "ice-public" "1";
                            mkHeader "ice-foo" "Y"]) = ["icy-pub:1"; "icy-name:X"].
Proof. reflexivity. Qed.

Example parse_i32_ex :
  (parse_i32 "-2147483648", parse_i32 "2147483648", parse_i32 "+", parse_i32 "+7")
  = (Some (-2147483648)%Z, None, None, Some 7%Z).
Proof. reflexivity. Qed.

(* ------------------------------------------------------------------ *)
(** ** HTTP responses ([BasicHttpResponse], net/socket.rs) *)

Definition crlf : string := String (ascii_of_nat 13) (String (ascii_of_nat 10) EmptyString).

Record BasicHttpResponse := mkResp { code : nat; rname : string; rheaders : list string }.

Definition OK : BasicHttpResponse := mkResp 200 "OK" [].
Definition UNAUTHORIZED : BasicHttpResponse := mkResp 401 "Unauthorized" [].
Definition NOT_FOUND : BasicHttpResponse := mkResp 404 "Not found" [].
Definition BAD_REQUEST : BasicHttpResponse := mkResp 400 "Bad Request" [].
Definition CONFLICT : BasicHttpResponse := mkResp 409 "Conflict" [].
Definition INTERNAL_SERVER_ERROR : BasicHttpResponse := mkResp 500 "Internal server error" [].

Definition resp_ok (headers : list string) : BasicHttpResponse := mkResp 200 "OK" headers.

(** The bytes [BasicHttpResponse::send] writes. *)
Definition render (r : BasicHttpResponse) : string :=
  "HTTP/1.1 " +:+ dec_of_N (N.of_nat (code r)) +:+ " " +:+ rname r +:+ crlf
  +:+ foldr (fun h acc => h +:+ crlf +:+ acc) "" (rheaders r) +:+ crlf.

(* ------------------------------------------------------------------ *)
(** ** Stats, Mount and the channel store (state.rs) *)

(** The three [usize] counters, as natural numbers: the model is exact
    while they stay below [usize::MAX]; [send_all_checked] below does the
    arithmetic of the send loop in [usize] itself. *)
Record Stats := mkStats { sub_count : nat; bytes_in : nat; bytes_out : nat }.

Definition Stats_new : Stats := mkStats 0 0 0.

(** A [Mount].  [sub_sender] and [stat_receiver] are handles to tokio
    channels, named by their channel id in the [World]; cloning a mount
    clones the handles, so a clone observes the same channels. *)
Record Mount := mkMount {
  content_type : string;
  sub_sender : nat;
  stat_receiver : nat;
  permanent : bool;
  source_auth : option string;
  sub_auth : option string;
  song : option string;
  meta : IceMeta
}.

Definition Mount_new (content_type : string) (sub_sender stat_receiver : nat)
    (source_auth sub_auth : option string) (permanent : bool) (meta : IceMeta) : Mount :=
  mkMount content_type sub_sender stat_receiver permanent source_auth sub_auth None meta.

Definition set_source (m : Mount) (sub_sender stat_receiver : nat) (content_type : string)
    (meta : IceMeta) : Mount :=
  mkMount content_type sub_sender stat_receiver (permanent m) (source_auth m) (sub_auth m)
    (song m) meta.

Definition set_song (s : string) (m : Mount) : Mount :=
  mkMount (content_type m) (sub_sender m) (stat_receiver m) (permanent m) (source_auth m)
    (sub_auth m) (Some s) (meta m).

(** The registry together with the channels its mounts refer to.
    - [sub_rx_alive c]: the receiver of subscriber-registration channel
      [c] (held by a source connector) still exists;
    - [sub_queue c]: per-sink producers sent on [c] and not yet received;
    - [watch_val c]: the value currently held by stats watch channel [c];
    - [data_tx_alive d]: some sender of per-sink data channel [d] exists. *)
Record World := mkWorld {
  mounts : gmap string Mount;
  sub_rx_alive : gmap nat bool;
  sub_queue : gmap nat (list nat);
  watch_val : gmap nat Stats;
  data_tx_alive : gmap nat bool;
  next_chan : nat
}.

Definition set_mounts (w : World) (ms : gmap string Mount) : World :=
  mkWorld ms (sub_rx_alive w) (sub_queue w) (watch_val w) (data_tx_alive w) (next_chan w).

(** [Mount::is_connected]: [!self.sub_sender.is_closed()]. *)
Definition is_connected (w : World) (m : Mount) : bool :=
  default false (sub_rx_alive w !! sub_sender m).

(** [Mount::stats]: [self.stat_receiver.borrow().clone()]. *)
Definition stats (w : World) (m : Mount) : Stats :=
  default Stats_new (watch_val w !! stat_receiver m).

(** [State::add_mount] *)
Definition add_mount (ms : gmap string Mount) (mount_name : string) (stream : Mount)
    : gmap string Mount * bool :=
  match ms !! mount_name with
  | None => (<[mount_name := stream]> ms, true)
  | Some _ => (ms, false)
  end.

Definition removable (w : World) (m : Mount) : bool :=
  negb (is_connected w m || permanent m).

(** [State::clean_disconnected_mounts]: collect the names while iterating,
    then remove them one by one, and return how many were collected. *)
Definition clean_disconnected_mounts (w : World) : World * nat :=
  let to_remove : list string :=
    fst <$> filter (fun nm : string * Mount => removable w nm.2 = true) (map_to_list (mounts w)) in
  let ms := foldl (fun acc n => delete n acc) (mounts w) to_remove in
  (set_mounts w ms, List.length to_remove).

(* ------------------------------------------------------------------ *)
(** ** Configuration (config.rs; only the fields the handlers read) *)

Record Config := mkConfig {
  static_source_dir : option string;
  admin_authorization : option string;
  allow_unauthenticated_mounts : bool
}.

(* ------------------------------------------------------------------ *)
(** ** [Connector::parse] (net/connector.rs) *)

Inductive CreateConnectorError :=
  | UnknownMethod (m : string)
  | MountHasSource (p : string)
  | MountDoesNotExist (p : string)
  | SourceMissingContentType
  | Unauthorized
  | MountNotConnected (p : string).

Inductive ConnectorKind :=
  | Sink (mount_meta : IceMeta) (data_rx : nat) (sink_content_type : string)
  | Source (subscriber_rx : nat) (stats_sender : nat) (start_stats : Stats).

(** The dispatcher's error-to-response table ([SocketHandler::run]). *)
Definition error_response (e : CreateConnectorError) : BasicHttpResponse :=
  match e with
  | UnknownMethod _ => BAD_REQUEST
  | MountHasSource _ => CONFLICT
  | MountDoesNotExist _ => NOT_FOUND
  | SourceMissingContentType => BAD_REQUEST
  | Unauthorized => UNAUTHORIZED
  | MountNotConnected _ => NOT_FOUND
  end.

Definition is_admin_of (cfg : Config) (authorization : option string) : bool :=
  match authorization with
  | Some a => bool_decide (is_Some (admin_authorization cfg))
              && bool_decide (Some a = admin_authorization cfg)
  | None => false
  end.

(** [unbounded_channel()] + [watch::channel(Stats::new())] for a new
    source: channel [next_chan w] serves as both, its receiver and its
    watch sender held by the connector being built. *)
Definition alloc_source_channels (w : World) : World :=
  let c := next_chan w in
  mkWorld (mounts w) (<[c := true]> (sub_rx_alive w)) (<[c := []]> (sub_queue w))
    (<[c := Stats_new]> (watch_val w)) (data_tx_alive w) (S c).

(** The concurrent source task of channel [c] ends and drops its receiver. *)
Definition drop_sub_rx (w : World) (c : nat) : World :=
  mkWorld (mounts w) (<[c := false]> (sub_rx_alive w)) (sub_queue w) (watch_val w)
    (data_tx_alive w) (next_chan w).

(** [unbounded_channel()] for a sink, then
    [mount.sub_sender().send(data_tx).ok()]: on success [data_tx] is queued on
    the registration channel; on failure the [SendError] holding [data_tx]
    is discarded, so the new data channel has no sender left. *)
Definition register_sink (w : World) (c : nat) : World :=
  let d := next_chan w in
  let ok := default false (sub_rx_alive w !! c) in
  mkWorld (mounts w) (sub_rx_alive w)
    (if ok then <[c := app (default [] (sub_queue w !! c)) [d]]> (sub_queue w) else sub_queue w)
    (watch_val w) (<[d := ok]> (data_tx_alive w)) (S d).

Definition parse_result := (World * (ConnectorKind + CreateConnectorError))%type.

(** [Connector::parse].  [race] says whether the mount's current source
    task drops its registration receiver between the [is_connected] check
    and the [send] of a GET attach (the source task runs concurrently and
    does not need the registry lock to do so).  [content_type_opt] is the
    [content_type] argument of the source. *)
Definition parse (cfg : Config) (w : World) (race : bool) (method mount_path : string)
    (content_type_opt : option string) (authorization : option string)
    (headers : list Header) : parse_result :=
  let is_admin := is_admin_of cfg authorization in
  if String.eqb method "SOURCE" then
    match content_type_opt with
    | None => (w, inr SourceMissingContentType)
    | Some ct =>
        let c := next_chan w in
        let meta := IceMeta_from headers in
        match mounts w !! mount_path with
        | Some mount =>
            let auth := source_auth mount in
            if negb is_admin && negb (bool_decide (auth = None))
               && negb (bool_decide (auth = authorization)) then (w, inr Unauthorized)
            else if is_connected w mount then (w, inr (MountHasSource mount_path))
            else
              (* the [unwrap] of [find_mount_mut] finds the mount just cloned *)
              let w1 := alloc_source_channels w in
              let w2 := set_mounts w1 (alter (fun m => set_source m c c ct meta) mount_path (mounts w1)) in
              (* [mount] is the clone taken before the swap: its receiver is
                 the previous source's stats channel *)
              (w2, inl (Source c c (stats w mount)))
        | None =>
            if negb is_admin && negb (allow_unauthenticated_mounts cfg) then (w, inr Unauthorized)
            else
              let w1 := alloc_source_channels w in
              let mount := Mount_new ct c c authorization None false meta in
              let w2 := set_mounts w1 (fst (add_mount (mounts w1) mount_path mount)) in
              (w2, inl (Source c c Stats_new))
        end
    end
  else if String.eqb method "GET" then
    match mounts w !! mount_path with
    | Some mount =>
        let auth := sub_auth mount in
        if bool_decide (is_Some auth) && negb (bool_decide (auth = authorization)) then
          (w, inr Unauthorized)
        else if negb (is_connected w mount) then (w, inr (MountNotConnected mount_path))
        else
          let w1 := if race then drop_sub_rx w (sub_sender mount) else w in
          let d := next_chan w1 in
          let w2 := register_sink w1 (sub_sender mount) in
          (w2, inl (Sink (meta mount) d (content_type mount)))
    | None => (w, inr (MountDoesNotExist mount_path))
    end
  else (w, inr (UnknownMethod method)).

(* ------------------------------------------------------------------ *)
(** ** Sink pump ([Connector::run_sink]) *)

Inductive SubDisconnectReason := SourceDisconnected | ClientDisconnected.

(** The [while let Some(bytes) = data_rx.recv()] loop over the blocks
    queued on the data channel; [client_ok] says whether the subscriber's
    socket accepts writes.  [None]: the queue is drained and a sender is
    still alive, so the sink keeps waiting. *)
Fixpoint sink_loop (queued : list string) (tx_alive client_ok : bool)
    : list string * option SubDisconnectReason :=
  match queued with
  | [] => ([], if tx_alive then None else Some SourceDisconnected)
  | bytes :: rest =>
      if client_ok then
        let '(out, r) := sink_loop rest tx_alive client_ok in (bytes :: out, r)
      else ([], Some ClientDisconnected)
  end.

Definition run_sink (mount_meta : IceMeta) (ct : string) (queued : list string)
    (tx_alive client_ok : bool) : list string * option SubDisconnectReason :=
  let headers := app (as_headers mount_meta) ["Content-Type: " +:+ ct] in
  let '(out, r) := sink_loop queued tx_alive client_ok in
  (render (resp_ok headers) :: out, r).

(* ------------------------------------------------------------------ *)
(** ** Source pump ([Connector::do_data_mirroring]) *)

(** What the environment does around one iteration of the loop:
    - [ev_new_subs]: per-sink producers pushed by the [add_subs] task
      before this read;
    - [ev_read]: the result of [read_half.read_buf] ([None] = error);
    - [ev_now]: [Instant::now()] at the sweep test, in milliseconds since
      the task started ([duration_since] saturates at zero, as [N.sub]);
    - [ev_closed]: data channels whose sink has gone by this send;
    - [ev_stats_rx_alive]: whether the stats watch still has a receiver. *)
Record MirrorEvent := mkEv {
  ev_new_subs : list nat;
  ev_read : option nat;
  ev_now : N;
  ev_closed : list nat;
  ev_stats_rx_alive : bool
}.

Definition closed_in (closed : list nat) (sub : nat) : bool :=
  bool_decide (sub ∈ closed).

(** The [for sub in subs.iter()] send loop. *)
Definition send_all (closed : list nat) (bytes : nat) (subs : list nat) (st : Stats)
    : Stats * bool :=
  foldl (fun '(st, flag) sub =>
           if closed_in closed sub then
             (mkStats (sub_count st - 1) (bytes_in st) (bytes_out st), true)
           else (mkStats (sub_count st) (bytes_in st) (bytes_out st + bytes), flag))
        (mkStats (List.length subs) (bytes_in st) (bytes_out st), false) subs.

(** State of the loop: the stats, the shared subscriber vector and the
    times (ms) at which the vector was swept.  [last_sub_clean] is bound
    once by [let last_sub_clean = Instant::now()] before the loop. *)
Fixpoint mirror (last_sub_clean : N) (evs : list MirrorEvent) (st : Stats)
    (subs : list nat) (sweeps : list N) : Stats * list nat * list N :=
  match evs with
  | [] => (st, subs, sweeps)
  | e :: evs' =>
      let subs := app subs (ev_new_subs e) in
      match ev_read e with
      | None => (st, subs, sweeps)
      | Some bytes =>
          let st := mkStats (sub_count st) (bytes_in st + bytes) (bytes_out st) in
          if Nat.eqb bytes 0 then (st, subs, sweeps)
          else
            let '(st, subs_to_remove) := send_all (ev_closed e) bytes subs st in
            let '(subs, sweeps) :=
              if subs_to_remove && N.ltb 10000 (ev_now e - last_sub_clean)%N then
                (List.filter (fun sub => negb (closed_in (ev_closed e) sub)) subs,
                 app sweeps [ev_now e])
              else (subs, sweeps) in
            if negb (ev_stats_rx_alive e) then (st, subs, sweeps)
            else mirror last_sub_clean evs' st subs sweeps
      end
  end.

Definition do_data_mirroring (evs : list MirrorEvent) (start : Stats) : Stats * list nat * list N :=
  mirror 0 evs start [] [].

(* ------------------------------------------------------------------ *)
(** ** Admin endpoint ([SocketHandler::admin], net/socket.rs) *)

(** [find_header]: first header with that name, as UTF-8. *)
Definition find_header (hs : list Header) (hname : string) : option string :=
  match find_value hs hname with
  | Some v => from_utf8 v
  | None => None
  end.

Definition hex_val (c : ascii) : option nat :=
  if in_range 48 57 c then Some (byte_of c - 48)
  else if in_range 65 70 c then Some (byte_of c - 55)
  else if in_range 97 102 c then Some (byte_of c - 87)
  else None.

(** [urlencoding::decode_binary]: [%XX] with two hex digits becomes one
    byte, any other [%] is kept as is; [+] is not touched. *)
Fixpoint decode_bytes (s : string) : string :=
  match s with
  | EmptyString => EmptyString
  | String c r =>
      if ascii_dec c "%" then
        match r with
        | String h1 (String h2 r') =>
            match hex_val h1, hex_val h2 with
            | Some a, Some b => String (ascii_of_nat (16 * a + b)) (decode_bytes r')
            | _, _ => String "%" (decode_bytes r)
            end
        | _ => String "%" (decode_bytes r)
        end
      else String c (decode_bytes r)
  end.

(** A handler run either finishes or panics (the [expect("UTF-8")]). *)
Inductive Res (A : Type) := Ret (a : A) | Panic.
Arguments Ret {A} a.
Arguments Panic {A}.

(** The [find_key] closure. *)
Definition find_key (values : list string) (key : string) : Res (option string) :=
  match List.find (starts_with key) values with
  | Some v =>
      match from_utf8 (decode_bytes (str_drop (String.length key) v)) with
      | Some s => Ret (Some s)
      | None => Panic
      end
  | None => Ret None
  end.

(** [SocketHandler::admin]: the new registry and the responses written.
    The registry lock is taken once to read and once to write; in this
    sequential model nothing runs between the two. *)
Definition admin (cfg : Config) (w : World) (uri : string) (headers : list Header)
    : Res (World * list BasicHttpResponse) :=
  match find_header headers "Authorization" with
  | None => Ret (w, [UNAUTHORIZED])
  | Some auth =>
      let is_admin := bool_decide (is_Some (admin_authorization cfg))
                      && bool_decide (Some auth = admin_authorization cfg) in
      let uri := str_drop (String.length "/admin/") uri in
      if starts_with "metadata?" uri then
        let values := split_on "&" (str_drop (String.length "metadata?") uri) in
        match find_key values "mount=" with
        | Panic => Panic
        | Ret None => Ret (w, [BAD_REQUEST])
        | Ret (Some mount_name) =>
            match mounts w !! mount_name with
            | None => Ret (w, [NOT_FOUND])
            | Some mount =>
                if negb is_admin && bool_decide (is_Some (source_auth mount))
                   && negb (bool_decide (source_auth mount = Some auth)) then
                  Ret (w, [UNAUTHORIZED])
                else
                  match find_key values "mode=" with
                  | Panic => Panic
                  | Ret mode =>
                      if negb (bool_decide (Some "updinfo" = mode)) then Ret (w, [BAD_REQUEST])
                      else
                        match find_key values "song=" with
                        | Panic => Panic
                        | Ret None => Ret (w, [BAD_REQUEST])
                        | Ret (Some s) =>
                            Ret (set_mounts w (alter (set_song s) mount_name (mounts w)), [])
                        end
                  end
            end
        end
      else Ret (w, [BAD_REQUEST])
  end.

(* ------------------------------------------------------------------ *)
(** ** Static files ([SocketHandler::static_file]) *)

(** The file system as the handler sees it: [std::fs::metadata] gives
    [(is_dir, len)], [tokio::fs::File::open] plus the read loop gives the
    successive non-empty blocks read. *)
Record Fs := mkFs {
  fs_metadata : string -> option (bool * nat);
  fs_open : string -> option (list string)
}.

Inductive Action :=
  | Metadata (p : string)
  | Open (p : string)
  | Send (r : BasicHttpResponse)
  | WriteBytes (b : string).

Definition ends_with_slash (s : string) : bool :=
  match String.get (String.length s - 1) s with
  | Some c => bool_decide (c = "/"%char)
  | None => false
  end.

(** [PathBuf::push]: an absolute argument replaces the path, otherwise it
    is appended after a separator. *)
Definition path_push (base s : string) : string :=
  if starts_with "/" s then s
  else if String.eqb base "" || ends_with_slash base then base +:+ s
  else base +:+ "/" +:+ s.

Definition bad_segment (part : string) : bool :=
  String.eqb part "." || String.eqb part ".." || String.eqb part "~".

(** [mime] stands for [mime_guess::from_path(..).first_or(TEXT_PLAIN)];
    socket writes are taken to succeed. *)
Definition static_file (cfg : Config) (fs : Fs) (mime : string -> string) (uri : string)
    : list Action :=
  let stripped := str_drop (String.length "/static/") uri in
  match static_source_dir cfg with
  | Some static_sources =>
      if existsb bad_segment (split_on "/" stripped) then [Send NOT_FOUND]
      else
        let path := path_push static_sources stripped in
        Metadata path ::
        match fs_metadata fs path with
        | Some (is_dir, file_length) =>
            if is_dir then [Send NOT_FOUND]
            else
              Open path ::
              match fs_open fs path with
              | None => [Send NOT_FOUND]
              | Some blocks =>
                  Send (resp_ok ["Content-Length: " +:+ dec_of_N (N.of_nat file_length);
                                 "Content-Type: " +:+ mime path])
                  :: map WriteBytes blocks
              end
        | None => [Send NOT_FOUND]
        end
  | None => [Send NOT_FOUND]
  end.

(* ------------------------------------------------------------------ *)
(** ** The whole configuration (config.rs, cli.rs) *)

(** [StreamUrl], the URL policy of the inventory. *)
Inductive StreamUrl := Hostname | XForwardedHostName | StaticUrl (value : string).

Record MountConfig := mkMountConfig {
  mc_source_auth : option string;
  mc_sub_auth : option string;
  mc_stream_url : option StreamUrl;
  mc_permanent : bool
}.

(** Every field of [Config]; the record [Config] above keeps the ones the
    request handlers read.  The [BTreeMap] of mounts is a finite map. *)
Record ConfigFull := mkConfigFull {
  cf_static_source_dir : option string;
  cf_default_stream_url : option StreamUrl;
  cf_admin_authorization : option string;
  cf_allow_unauthenticated_mounts : bool;
  cf_mounts : gmap string MountConfig
}.

Definition handler_config (c : ConfigFull) : Config :=
  mkConfig (cf_static_source_dir c) (cf_admin_authorization c) (cf_allow_unauthenticated_mounts c).

(** [Option::or] *)
Definition opt_or {A} (a b : option A) : option A :=
  match a with Some _ => a | None => b end.

(** [Config::merge]: [other] wins where it has a value. *)
Definition merge (self other : ConfigFull) : ConfigFull :=
  let static_source_dir := opt_or (cf_static_source_dir other) (cf_static_source_dir self) in
  let default_stream_url := opt_or (cf_default_stream_url other) (cf_default_stream_url self) in
  let admin_authorization := opt_or (cf_admin_authorization other) (cf_admin_authorization self) in
  let allow_unauthenticated_mounts :=
    cf_allow_unauthenticated_mounts other || cf_allow_unauthenticated_mounts self in
  let mounts := foldl (fun acc '(k, v) => <[k := v]> acc) (cf_mounts self)
                  (map_to_list (cf_mounts other)) in
  mkConfigFull static_source_dir default_stream_url admin_authorization
    allow_unauthenticated_mounts mounts.

(** The configuration that sets nothing: no optional setting, the
    unauthenticated-mounts switch off and no mount. *)
Definition config_none : ConfigFull := mkConfigFull None None None false ∅.

(** The command-line options of [CliArgs]; [config_file] stands for the
    file already read and parsed (a read or parse failure panics). *)
Record CliArgs := mkCliArgs {
  config_file : option ConfigFull;
  cli_admin_authorization : option string;
  cli_allow_unauthenticated_mounts : bool;
  static_files_dir : option string
}.

(** [impl Into<Config> for CliArgs] *)
Definition cli_into (a : CliArgs) : ConfigFull :=
  let my_config := mkConfigFull (static_files_dir a) None (cli_admin_authorization a)
                     (cli_allow_unauthenticated_mounts a) ∅ in
  match config_file a with
  | Some fcfg => merge fcfg my_config
  | None => my_config
  end.

(* ------------------------------------------------------------------ *)
(** ** Startup and the reaper task (state.rs, main.rs) *)

(** [State::get_mount_stats] *)
Definition get_mount_stats (w : World) : gmap string Stats :=
  foldl (fun map (nm : string * Mount) => <[nm.1 := stats w nm.2]> map) ∅
    (map_to_list (mounts w)).

(** [unbounded_channel().0] and [watch::channel(Stats::new()).1] of the
    startup loop: the registration receiver and the watch sender are
    dropped at once, so channel [next_chan w] is closed and holds
    [Stats::new()] for good. *)
Definition alloc_closed_channels (w : World) : World :=
  let c := next_chan w in
  mkWorld (mounts w) (<[c := false]> (sub_rx_alive w)) (<[c := []]> (sub_queue w))
    (<[c := Stats_new]> (watch_val w)) (data_tx_alive w) (S c).

(** One iteration of the [for (mount_name, config) in &cfg.mounts] loop of [main]. *)
Definition register_configured (w : World) (nc : string * MountConfig) : World :=
  let '(mount_name, config) := nc in
  let c := next_chan w in
  let w1 := alloc_closed_channels w in
  let mount := Mount_new "" c c (mc_source_auth config) (mc_sub_auth config)
                 (mc_permanent config) IceMeta_default in
  set_mounts w1 (fst (add_mount (mounts w1) mount_name mount)).

(** The state [main] builds before it accepts connections. *)
Definition startup_state (cfg : ConfigFull) : World :=
  foldl register_configured (mkWorld ∅ ∅ ∅ ∅ ∅ 0) (map_to_list (cf_mounts cfg)).

(** What can happen to the state once [main] accepts connections, in any
    interleaving: a connection's [Connector::parse] (under the registry
    lock), an admin request that returns, a round of the reaper, or
    anything done outside the registry (a source or sink task ending, a
    stats update), which leaves the mounts as they are. *)
Inductive server_step (cfg : ConfigFull) : World -> World -> Prop :=
  | step_connect w race method p ct authorization hs :
      server_step cfg w (fst (parse (handler_config cfg) w race method p ct authorization hs))
  | step_admin w uri hs w' rs :
      admin (handler_config cfg) w uri hs = Ret (w', rs) -> server_step cfg w w'
  | step_reaper w :
      server_step cfg w (fst (clean_disconnected_mounts w))
  | step_outside w w' :
      mounts w' = mounts w -> server_step cfg w w'.

(** Every registered mount refers to a closed registration channel and a
    watch channel holding [Stats::new()]. *)
Definition closed_mounts (w : World) : Prop :=
  forall k m, mounts w !! k = Some m ->
    sub_rx_alive w !! sub_sender m = Some false /\ watch_val w !! stat_receiver m = Some Stats_new.

(* ------------------------------------------------------------------ *)
(** ** Subscribers the send loop reaches *)

Definition open_subs (closed : list nat) (subs : list nat) : list nat :=
  List.filter (fun sub => negb (closed_in closed sub)) subs.

(** [usize] arithmetic of width [W] with the overflow checks of a debug
    build: [None] is the panic. *)
Definition usize_add (W a b : nat) : option nat :=
  if (a + b <? 2 ^ W)%nat then Some (a + b)%nat else None.

Definition usize_sub (W a b : nat) : option nat :=
  if (b <=? a)%nat then Some (a - b)%nat else None.

(** One pass of the send loop of [do_data_mirroring] with
    [stats.sub_count -= 1] and [stats.bytes_out += bytes] in [W]-bit
    [usize]; [None] once the task has panicked. *)
Definition send_step_checked (W : nat) (closed : list nat) (bytes : nat)
    (acc : option (Stats * bool)) (sub : nat) : option (Stats * bool) :=
  match acc with
  | None => None
  | Some (st, flag) =>
      if closed_in closed sub then
        match usize_sub W (sub_count st) 1 with
        | Some c => Some (mkStats c (bytes_in st) (bytes_out st), true)
        | None => None
        end
      else
        match usize_add W (bytes_out st) bytes with
        | Some b => Some (mkStats (sub_count st) (bytes_in st) b, flag)
        | None => None
        end
  end.

(** The send loop in [W]-bit [usize]. *)
Definition send_all_checked (W : nat) (closed : list nat) (bytes : nat) (subs : list nat)
    (st : Stats) : option (Stats * bool) :=
  foldl (send_step_checked W closed bytes)
        (Some (mkStats (List.length subs) (bytes_in st) (bytes_out st), false)) subs.

(* ------------------------------------------------------------------ *)
(** ** Request dispatch ([SocketHandler::run]) *)

(** Where [SocketHandler::run] sends a parsed request. *)
Inductive Route :=
  | RStatic (uri : string)
  | RMountInfo
  | RAdmin (uri : string)
  | RConnector (uri : string) (content_type authorization : option string).

Definition route (uri : string) (headers : list Header) : Route :=
  if String.eqb uri "/favicon.ico" || String.eqb uri "/" || starts_with "/static/" uri then
    RStatic (if String.eqb uri "/" then "/static/index.html"
             else if String.eqb uri "/favicon.ico" then "/static/favicon.ico"
             else uri)
  else if String.eqb uri "/mount_info" then RMountInfo
  else if starts_with "/admin/" uri then RAdmin uri
  else RConnector uri (find_header headers "Content-Type") (find_header headers "Authorization").

(* ================================================================== *)
(** * Properties *)

(* ------------------------------------------------------------------ *)
(** ** Registry *)

(** C9: [add_mount] inserts only when the name is free; otherwise it
    reports [false] and keeps the mount already registered, so a second
    [add_mount] under the same name keeps the first mount. *)
Theorem add_mount_spec (ms : gmap string Mount) (p : string) (m : Mount) :
  (ms !! p = None -> add_mount ms p m = (<[p := m]> ms, true)) /\
  (forall m0, ms !! p = Some m0 -> add_mount ms p m = (ms, false) /\ (fst (add_mount ms p m)) !! p = Some m0) /\
  (ms !! p = None -> forall m2,
     let '(ms1, b1) := add_mount ms p m in
     let '(ms2, b2) := add_mount ms1 p m2 in
     b1 = true /\ b2 = false /\ ms2 = ms1 /\ ms2 !! p = Some m).
Proof.
  unfold add_mount. split; [|split].
  - intros H. by rewrite H.
  - intros m0 H. rewrite H. done.
  - intros H m2. rewrite H. simpl. rewrite lookup_insert_eq. simpl.
    repeat split. apply lookup_insert_eq.
Qed.

Lemma add_mount_spec_witness :
  add_mount ∅ "/s" (Mount_new "a" 0 0 None None false IceMeta_default)
    = (<[ "/s" := Mount_new "a" 0 0 None None false IceMeta_default ]> ∅, true).
Proof. apply (add_mount_spec ∅ "/s" _). reflexivity. Defined.

Lemma lookup_foldl_delete (l : list string) (ms : gmap string Mount) (k : string) :
  foldl (fun acc n => delete n acc) ms l !! k = if bool_decide (k ∈ l) then None else ms !! k.
Proof.
  revert ms. induction l as [|x l IH]; intros ms.
  - done.
  - cbn [foldl]. rewrite IH. destruct (decide (k = x)) as [->|Hne].
    + rewrite lookup_delete_eq. by repeat case_bool_decide; set_solver.
    + rewrite lookup_delete_ne by congruence.
      repeat case_bool_decide; set_solver.
Qed.

Lemma NoDup_fst_filter (P : string * Mount -> Prop) `{!forall x, Decision (P x)}
    (l : list (string * Mount)) :
  NoDup l.*1 -> NoDup (filter P l).*1.
Proof.
  induction l as [|[k v] l IH]; simpl; intros Hnd; [constructor|].
  apply NoDup_cons in Hnd as [Hk Hl]. rewrite filter_cons.
  case_decide; simpl; [|auto]. constructor; [|auto].
  intros Hin. apply Hk. apply list_elem_of_fmap in Hin as [x [-> Hx]].
  apply list_elem_of_fmap. exists x. split; [done|].
  by apply list_elem_of_filter in Hx as [_ Hx].
Qed.

(** C8: [clean_disconnected_mounts] drops exactly the mounts that are
    neither connected nor permanent, keeps every other mount unchanged,
    touches no channel, and returns the number of mounts dropped. *)
Theorem clean_disconnected_mounts_spec (w : World) :
  let '(w', n) := clean_disconnected_mounts w in
  (forall k, mounts w' !! k =
     match mounts w !! k with
     | Some m => if removable w m then None else Some m
     | None => None
     end) /\
  w' = set_mounts w (mounts w') /\
  n = size (filter (fun km : string * Mount => removable w km.2 = true) (mounts w)) /\
  n + size (mounts w') = size (mounts w).
Proof.
  unfold clean_disconnected_mounts; simpl.
  set (P := fun km : string * Mount => removable w km.2 = true).
  set (l := filter P (map_to_list (mounts w))).
  assert (Hlook : forall k, foldl (fun acc n => delete n acc) (mounts w) (fst <$> l) !! k =
     match mounts w !! k with
     | Some m => if removable w m then None else Some m
     | None => None
     end).
  { intros k. rewrite lookup_foldl_delete.
    destruct (mounts w !! k) as [m|] eqn:Hk.
    - case_bool_decide as Hin.
      + apply list_elem_of_fmap in Hin as [[k' m'] [Heq Hin]]. simpl in Heq; subst k'.
        apply list_elem_of_filter in Hin as [HP Hin].
        apply elem_of_map_to_list in Hin. rewrite Hk in Hin. injection Hin as <-.
        unfold P in HP; simpl in HP. by rewrite HP.
      + destruct (removable w m) eqn:Hr; [|done]. exfalso. apply Hin.
        apply list_elem_of_fmap. exists (k, m). split; [done|].
        apply list_elem_of_filter. split; [done|]. by apply elem_of_map_to_list.
    - case_bool_decide as Hin; [|done].
      apply list_elem_of_fmap in Hin as [[k' m'] [Heq Hin]]. simpl in Heq; subst k'.
      apply list_elem_of_filter in Hin as [_ Hin].
      apply elem_of_map_to_list in Hin. congruence. }
  assert (Hsize : List.length (fst <$> l) = size (filter P (mounts w))).
  { rewrite length_fmap, map_filter_alt, map_size_list_to_map; [done|].
    apply NoDup_fst_filter, NoDup_fst_map_to_list. }
  assert (Hkeep : foldl (fun acc n => delete n acc) (mounts w) (fst <$> l)
                  = filter (fun km : string * Mount => ~ P km) (mounts w)).
  { apply map_eq. intros k. rewrite Hlook, map_lookup_filter.
    destruct (mounts w !! k) as [m|]; simpl; [|done].
    unfold P; simpl. by destruct (removable w m). }
  split; [exact Hlook|]. split; [reflexivity|]. split; [exact Hsize|].
  rewrite Hsize, Hkeep.
  rewrite <- (map_filter_union_complement P (mounts w)) at 3.
  rewrite map_size_disj_union; [done|]. apply map_disjoint_filter_complement.
Qed.

(* ------------------------------------------------------------------ *)
(** ** Static files *)

(** C10: a static-file request with a [.], [..] or [~] segment after
    [/static/] is answered 404 Not found and touches no file. *)
Theorem static_file_rejects_dot_segments (cfg : Config) (fs : Fs) (mime : string -> string)
    (uri part : string) :
  In part (split_on "/" (str_drop (String.length "/static/") uri)) ->
  part = "." \/ part = ".." \/ part = "~" ->
  static_file cfg fs mime uri = [Send NOT_FOUND].
Proof.
  intros Hin Hbad. unfold static_file.
  destruct (static_source_dir cfg) as [dir|]; [|reflexivity].
  assert (Hex : existsb bad_segment (split_on "/" (str_drop (String.length "/static/") uri)) = true).
  { apply existsb_exists. exists part. split; [exact Hin|].
    unfold bad_segment. destruct Hbad as [->|[->| ->]]; reflexivity. }
  rewrite Hex. reflexivity.
Qed.

Definition srv_cfg : Config := mkConfig (Some "/srv/static") None false.
Definition any_fs : Fs := mkFs (fun _ => Some (false, 4)) (fun _ => Some ["root"]).

Lemma static_file_rejects_dot_segments_witness :
  static_file srv_cfg any_fs (fun _ => "text/plain") "/static/../etc/passwd" = [Send NOT_FOUND].
Proof.
  apply (static_file_rejects_dot_segments srv_cfg any_fs (fun _ => "text/plain")
           "/static/../etc/passwd" "..").
  - vm_compute. tauto.
  - right; left; reflexivity.
Defined.

(* ------------------------------------------------------------------ *)
(** ** IceMeta headers *)

(** The header list as the spec words it: one entry per present field, in
    field order, named [icy-<field>] except [audio_info] which keeps the
    [ice-] prefix. *)
Definition present_fields (m : IceMeta) : list (string * string) :=
  omap (fun nv : string * option string => pair nv.1 <$> nv.2)
    [("pub", z_to_dec <$> public m); ("name", name m); ("description", description m);
     ("genre", genre m); ("url", url m); ("irc", irc m); ("aim", aim m);
     ("icq", icq m); ("audio-info", audio_info m)].

Definition spec_header (nv : string * string) : string :=
  (if String.eqb nv.1 "audio-info" then "ice-" else "icy-") +:+ nv.1 +:+ ":" +:+ nv.2.

(** C5: parsing [ice-name: X], [ice-public: 1], [ice-foo: Y] and rendering
    gives exactly [icy-pub:1] then [icy-name:X] (the unknown key is
    dropped), and in general [as_headers] emits one [icy-<name>:<value>]
    per present field, in field order, with [ice-audio-info] for
    [audio_info]. *)
Theorem ice_meta_headers (X Y : string) :
  (utf8_valid X = true -> X <> "" ->
   as_headers (IceMeta_from [mkHeader "ice-name" X; mkHeader "ice-public" "1";
                             mkHeader "ice-foo" Y])
   = ["icy-pub:1"; "icy-name:" +:+ X]) /\
  (forall m : IceMeta, as_headers m = map spec_header (present_fields m)).
Proof.
  split.
  - intros HX HXne. unfold as_headers, IceMeta_from, extract_val, from_utf8. cbn.
    rewrite HX. destruct (String.eqb_spec X ""); [contradiction|]. reflexivity.
  - intros [p n d g u i a q ai].
    destruct p, n, d, g, u, i, a, q, ai; reflexivity.
Qed.

Lemma ice_meta_headers_witness :
  as_headers (IceMeta_from [mkHeader "ice-name" "Radio X"; mkHeader "ice-public" "1";
                            mkHeader "ice-foo" "Y"])
  = ["icy-pub:1"; "icy-name:" +:+ "Radio X"].
Proof.
  apply (proj1 (ice_meta_headers "Radio X" "Y")); [reflexivity | discriminate].
Defined.

(* ------------------------------------------------------------------ *)
(** ** Connector attach *)

(** The source-authorization rule of [Connector::parse] and [admin]. *)
Definition source_authorized (cfg : Config) (authorization : option string) (m : Mount) : Prop :=
  is_admin_of cfg authorization = true \/ source_auth m = None \/ source_auth m = authorization.

Lemma source_auth_gate (cfg : Config) (authorization : option string) (m : Mount) :
  source_authorized cfg authorization m <->
  negb (is_admin_of cfg authorization) && negb (bool_decide (source_auth m = None))
  && negb (bool_decide (source_auth m = authorization)) = false.
Proof.
  unfold source_authorized.
  destruct (is_admin_of cfg authorization); simpl; [intuition|].
  repeat case_bool_decide; simpl; intuition congruence.
Qed.

Lemma parse_source (cfg : Config) (w : World) (race : bool) (p ct : string)
    (authorization : option string) (hs : list Header) :
  parse cfg w race "SOURCE" p (Some ct) authorization hs =
  match mounts w !! p with
  | Some mount =>
      if negb (is_admin_of cfg authorization) && negb (bool_decide (source_auth mount = None))
         && negb (bool_decide (source_auth mount = authorization)) then (w, inr Unauthorized)
      else if is_connected w mount then (w, inr (MountHasSource p))
      else
        let w1 := alloc_source_channels w in
        (set_mounts w1 (alter (fun m => set_source m (next_chan w) (next_chan w) ct (IceMeta_from hs))
                            p (mounts w1)),
         inl (Source (next_chan w) (next_chan w) (stats w mount)))
  | None =>
      if negb (is_admin_of cfg authorization) && negb (allow_unauthenticated_mounts cfg)
      then (w, inr Unauthorized)
      else
        let w1 := alloc_source_channels w in
        (set_mounts w1 (fst (add_mount (mounts w1) p
           (Mount_new ct (next_chan w) (next_chan w) authorization None false (IceMeta_from hs)))),
         inl (Source (next_chan w) (next_chan w) Stats_new))
  end.
Proof. reflexivity. Qed.

(** C3: a SOURCE request with a Content-Type against an existing mount is
    first checked against the source-authorization rule (failing gives
    Unauthorized, 401); an authorized request against a connected mount
    gives MountHasSource (409), and against a disconnected mount it
    swaps in the new source with [set_source]. *)
Theorem source_attach_existing_mount (cfg : Config) (w : World) (race : bool)
    (p ct : string) (authorization : option string) (hs : list Header) (m : Mount) :
  mounts w !! p = Some m ->
  (~ source_authorized cfg authorization m ->
   parse cfg w race "SOURCE" p (Some ct) authorization hs = (w, inr Unauthorized) /\
   code (error_response Unauthorized) = 401) /\
  (source_authorized cfg authorization m -> is_connected w m = true ->
   parse cfg w race "SOURCE" p (Some ct) authorization hs = (w, inr (MountHasSource p)) /\
   code (error_response (MountHasSource p)) = 409) /\
  (source_authorized cfg authorization m -> is_connected w m = false ->
   exists w' k, parse cfg w race "SOURCE" p (Some ct) authorization hs = (w', inl k) /\
   mounts w' !! p = Some (set_source m (next_chan w) (next_chan w) ct (IceMeta_from hs))).
Proof.
  intros Hm. rewrite parse_source, Hm. split; [|split].
  - intros Hna. split; [|reflexivity].
    destruct (negb (is_admin_of cfg authorization) && negb (bool_decide (source_auth m = None))
              && negb (bool_decide (source_auth m = authorization))) eqn:Hg; [reflexivity|].
    exfalso. apply Hna. by apply source_auth_gate.
  - intros Ha Hc. apply source_auth_gate in Ha. rewrite Ha, Hc. split; reflexivity.
  - intros Ha Hc. apply source_auth_gate in Ha. rewrite Ha, Hc.
    eexists; eexists; split; [reflexivity|]. simpl. rewrite lookup_alter, Hm. destruct (decide (p = p)); [reflexivity | congruence].
Qed.

Definition open_cfg : Config := mkConfig None (Some "admin-secret") true.

Definition m_s : Mount :=
  Mount_new "audio/mpeg" 0 0 (Some "S") None false IceMeta_default.

(** A registry with [/s] on air: its source holds channel 0. *)
Definition w_s : World :=
  mkWorld {[ "/s" := m_s ]} {[ 0 := true ]} {[ 0 := [] ]}
    {[ 0 := mkStats 1 40 40 ]} ∅ 1.

(** The same registry after its source disconnected. *)
Definition w_s_off : World :=
  mkWorld {[ "/s" := m_s ]} {[ 0 := false ]} {[ 0 := [] ]}
    {[ 0 := mkStats 0 40 80 ]} ∅ 1.

Definition empty_world : World := mkWorld ∅ ∅ ∅ ∅ ∅ 0.

Lemma source_attach_existing_mount_witness :
  parse open_cfg w_s false "SOURCE" "/s" (Some "audio/mpeg") (Some "S") []
    = (w_s, inr (MountHasSource "/s")) /\
  code (error_response (MountHasSource "/s")) = 409.
Proof.
  apply (proj1 (proj2 (source_attach_existing_mount open_cfg w_s false "/s" "audio/mpeg"
                           (Some "S") [] m_s eq_refl))).
  - right; right; reflexivity.
  - vm_compute. reflexivity.
Defined.

(** C4: the [start_stats] of a successful SOURCE attach is the stats
    snapshot of the mount found at lookup (the previous source's counters)
    when the mount existed, and all zero when the attach created it. *)
Theorem source_attach_start_stats (cfg : Config) (w w' : World) (race : bool)
    (p ct : string) (authorization : option string) (hs : list Header)
    (rx tx : nat) (st : Stats) :
  parse cfg w race "SOURCE" p (Some ct) authorization hs = (w', inl (Source rx tx st)) ->
  (forall m, mounts w !! p = Some m -> st = stats w m) /\
  (mounts w !! p = None -> st = Stats_new).
Proof.
  rewrite parse_source. destruct (mounts w !! p) as [m|] eqn:Hp.
  - destruct (negb (is_admin_of cfg authorization) && _ && _); [discriminate|].
    destruct (is_connected w m); [discriminate|].
    intros H. injection H as _ _ _ Hst. subst st.
    split; [intros m' Hm'; congruence | discriminate].
  - destruct (negb (is_admin_of cfg authorization) && _); [discriminate|].
    intros H. injection H as _ _ _ Hst. subst st.
    split; [discriminate | reflexivity].
Qed.

Lemma source_attach_start_stats_witness :
  stats w_s_off m_s = mkStats 0 40 80 /\
  parse open_cfg w_s_off false "SOURCE" "/s" (Some "audio/mpeg") (Some "S") []
    = (fst (parse open_cfg w_s_off false "SOURCE" "/s" (Some "audio/mpeg") (Some "S") []),
       inl (Source 1 1 (mkStats 0 40 80))).
Proof.
  assert (H : parse open_cfg w_s_off false "SOURCE" "/s" (Some "audio/mpeg") (Some "S") []
              = (fst (parse open_cfg w_s_off false "SOURCE" "/s" (Some "audio/mpeg") (Some "S") []),
                 inl (Source 1 1 (mkStats 0 40 80)))) by (vm_compute; reflexivity).
  split; [|exact H].
  symmetry. apply (proj1 (source_attach_start_stats open_cfg w_s_off _ false "/s" "audio/mpeg"
                            (Some "S") [] 1 1 _ H)).
  reflexivity.
Defined.

(** C7 (as the code has it): a successful SOURCE attach leaves the mount
    at its path connected, with [content_type] equal to the request's
    Content-Type value, whatever that value is. *)
Theorem source_attach_content_type (cfg : Config) (w w' : World) (race : bool)
    (p ct : string) (authorization : option string) (hs : list Header) (k : ConnectorKind) :
  parse cfg w race "SOURCE" p (Some ct) authorization hs = (w', inl k) ->
  exists m', mounts w' !! p = Some m' /\ content_type m' = ct /\ is_connected w' m' = true.
Proof.
  rewrite parse_source. destruct (mounts w !! p) as [m|] eqn:Hp.
  - destruct (negb (is_admin_of cfg authorization) && _ && _); [discriminate|].
    destruct (is_connected w m); [discriminate|].
    intros H. injection H as <- _. simpl.
    rewrite lookup_alter, Hp. destruct (decide (p = p)); [|congruence]. simpl.
    eexists; split; [reflexivity|]. split; [reflexivity|].
    unfold is_connected; simpl. by rewrite lookup_insert_eq.
  - destruct (negb (is_admin_of cfg authorization) && _); [discriminate|].
    intros H. injection H as <- _. simpl. unfold add_mount; simpl. rewrite Hp. simpl.
    rewrite lookup_insert_eq.
    eexists; split; [reflexivity|]. split; [reflexivity|].
    unfold is_connected; simpl. by rewrite lookup_insert_eq.
Qed.

Lemma source_attach_content_type_witness :
  exists m', mounts (fst (parse open_cfg empty_world false "SOURCE" "/s" (Some "") None []))
               !! "/s" = Some m' /\ content_type m' = "" /\
             is_connected (fst (parse open_cfg empty_world false "SOURCE" "/s" (Some "") None [])) m' = true.
Proof.
  apply (source_attach_content_type open_cfg empty_world _ false "/s" "" None []
           (Source 0 0 Stats_new)).
  vm_compute. reflexivity.
Defined.

(** C7 fails: a SOURCE request whose Content-Type header is present but
    empty creates a connected mount whose [content_type] is empty. *)
Lemma empty_content_type_on_air :
  let hs := [mkHeader "Content-Type" ""] in
  find_header hs "Content-Type" = Some "" /\
  exists m', mounts (fst (parse open_cfg empty_world false "SOURCE" "/s"
                            (find_header hs "Content-Type") None hs)) !! "/s" = Some m' /\
             is_connected (fst (parse open_cfg empty_world false "SOURCE" "/s"
                                  (find_header hs "Content-Type") None hs)) m' = true /\
             content_type m' = "".
Proof.
  simpl. split; [reflexivity|]. vm_compute.
  eexists; split; [reflexivity|]. split; reflexivity.
Qed.

Lemma parse_get (cfg : Config) (w : World) (race : bool) (p : string) (ct : option string)
    (authorization : option string) (hs : list Header) :
  parse cfg w race "GET" p ct authorization hs =
  match mounts w !! p with
  | Some mount =>
      if bool_decide (is_Some (sub_auth mount)) && negb (bool_decide (sub_auth mount = authorization))
      then (w, inr Unauthorized)
      else if negb (is_connected w mount) then (w, inr (MountNotConnected p))
      else
        let w1 := if race then drop_sub_rx w (sub_sender mount) else w in
        (register_sink w1 (sub_sender mount), inl (Sink (meta mount) (next_chan w1) (content_type mount)))
  | None => (w, inr (MountDoesNotExist p))
  end.
Proof. reflexivity. Qed.

(** A GET attach to an existing, sub-authorized, connected mount always
    yields a Sink connector.  The registration send
    fails exactly when the source dropped its receiver after the
    [is_connected] check ([race]); the error is discarded, the sink's data
    channel is left without a sender, and the sink pump answers 200 and
    stops with SourceDisconnected. *)
Theorem get_attach_connected (cfg : Config) (w : World) (race : bool) (p : string)
    (ct : option string) (authorization : option string) (hs : list Header) (m : Mount)
    (client_ok : bool) :
  mounts w !! p = Some m ->
  (sub_auth m = None \/ sub_auth m = authorization) ->
  is_connected w m = true ->
  snd (parse cfg w race "GET" p ct authorization hs)
    = inl (Sink (meta m) (next_chan w) (content_type m)) /\
  data_tx_alive (fst (parse cfg w race "GET" p ct authorization hs)) !! next_chan w
    = Some (negb race) /\
  (race = true ->
   run_sink (meta m) (content_type m) []
     (default false (data_tx_alive (fst (parse cfg w race "GET" p ct authorization hs))
                       !! next_chan w)) client_ok
   = ([render (resp_ok (app (as_headers (meta m)) ["Content-Type: " +:+ content_type m]))],
      Some SourceDisconnected)).
Proof.
  intros Hm Hauth Hc. rewrite parse_get, Hm.
  assert (Hg : bool_decide (is_Some (sub_auth m)) && negb (bool_decide (sub_auth m = authorization))
               = false).
  { destruct Hauth as [Ha|Ha]; rewrite Ha; repeat case_bool_decide; simpl;
      try reflexivity; try congruence. by destruct H. }
  rewrite Hg, Hc. simpl.
  unfold register_sink. destruct race; simpl.
  - unfold drop_sub_rx; simpl. rewrite lookup_insert_eq. simpl.
    split; [reflexivity|]. rewrite lookup_insert_eq. split; [reflexivity|].
    intros _. reflexivity.
  - unfold is_connected in Hc. rewrite Hc. simpl.
    split; [reflexivity|]. rewrite lookup_insert_eq. split; [reflexivity | discriminate].
Qed.

Lemma get_attach_connected_witness :
  snd (parse open_cfg w_s true "GET" "/s" None None [])
    = inl (Sink IceMeta_default 1 "audio/mpeg") /\
  data_tx_alive (fst (parse open_cfg w_s true "GET" "/s" None None [])) !! 1 = Some false /\
  (true = true ->
   run_sink IceMeta_default "audio/mpeg" []
     (default false (data_tx_alive (fst (parse open_cfg w_s true "GET" "/s" None None [])) !! 1))
     true
   = ([render (resp_ok (app (as_headers IceMeta_default) ["Content-Type: " +:+ "audio/mpeg"]))],
      Some SourceDisconnected)).
Proof.
  apply (get_attach_connected open_cfg w_s true "/s" None None [] m_s true).
  - reflexivity.
  - left; reflexivity.
  - reflexivity.
Defined.

(** C2 fails: with [/s] on air, its source drops the registration receiver
    between the check and the send; the send fails, yet the attach
    succeeds as a Sink instead of failing with MountNotConnected. *)
Lemma get_attach_failed_send_is_sink :
  is_connected w_s m_s = true /\
  is_connected (drop_sub_rx w_s (sub_sender m_s)) m_s = false /\
  snd (parse open_cfg w_s true "GET" "/s" None None [])
    = inl (Sink IceMeta_default 1 "audio/mpeg") /\
  snd (parse open_cfg w_s true "GET" "/s" None None []) <> inr (MountNotConnected "/s").
Proof.
  split; [reflexivity|]. split; [reflexivity|]. split; [reflexivity|]. discriminate.
Qed.

(* ------------------------------------------------------------------ *)
(** ** Admin metadata update *)

Definition admin_cfg : Config := mkConfig None (Some "X") false.

Definition updinfo_uri : string :=
  "/admin/metadata?mount=%2Fs&mode=updinfo&song=Hello%20World".

(** C1 fails: spec scenario 4 (admin credentials, mount [/s] on air).
    The handler stores the song but writes no response at all: the
    success path ends after the write-locked [set_song] and the
    connection is closed without the 200. *)
Theorem admin_updinfo_writes_no_response :
  admin admin_cfg w_s updinfo_uri [mkHeader "Authorization" "X"]
  = Ret (set_mounts w_s (<[ "/s" := set_song "Hello World" m_s ]> (mounts w_s)), []).
Proof. vm_compute. reflexivity. Qed.

(* ------------------------------------------------------------------ *)
(** ** Subscriber sweep in the source pump *)

(** Two reads 1 s apart, 11 s and 12 s after the pump started; sink 1 has
    gone before the first, sink 2 before the second. *)
Definition sweep_events : list MirrorEvent :=
  [mkEv [1; 2] (Some 100) 11000%N [1] true;
   mkEv [] (Some 100) 12000%N [1; 2] true].

(** C6 fails: [last_sub_clean] is never reset, so once 10 s have passed
    every read with a failed send sweeps; here two sweeps run 1 s apart. *)
Theorem data_mirroring_sweeps_one_second_apart :
  do_data_mirroring sweep_events Stats_new
  = (mkStats 0 200 100, [], [11000%N; 12000%N]).
Proof. vm_compute. reflexivity. Qed.

(* ------------------------------------------------------------------ *)
(** ** Configuration merging *)

Lemma lookup_foldl_insert {V} (l : list (string * V)) (acc : gmap string V) (k : string) :
  NoDup l.*1 ->
  foldl (fun acc '(k, v) => <[k := v]> acc) acc l !! k =
  match (list_to_map l : gmap string V) !! k with Some v => Some v | None => acc !! k end.
Proof.
  revert acc. induction l as [|[k' v'] l IH]; intros acc Hnd; simpl; [by rewrite lookup_empty|].
  apply NoDup_cons in Hnd as [Hk' Hnd]. rewrite IH by done.
  destruct (decide (k = k')) as [->|Hne].
  - assert (Hn : (list_to_map l : gmap string V) !! k' = None).
    { apply not_elem_of_list_to_map_1. done. }
    by rewrite Hn, !lookup_insert_eq.
  - rewrite !lookup_insert_ne by congruence. reflexivity.
Qed.

Lemma merge_mounts (self other : ConfigFull) :
  cf_mounts (merge self other) = cf_mounts other ∪ cf_mounts self.
Proof.
  apply map_eq. intros k. unfold merge; simpl.
  rewrite lookup_foldl_insert by apply NoDup_fst_map_to_list.
  rewrite list_to_map_to_list, lookup_union.
  by destruct (cf_mounts other !! k), (cf_mounts self !! k).
Qed.


Lemma opt_or_assoc {A} (a b c : option A) : opt_or (opt_or a b) c = opt_or a (opt_or b c).
Proof. by destruct a. Qed.

Lemma config_eq (a b : ConfigFull) :
  cf_static_source_dir a = cf_static_source_dir b ->
  cf_default_stream_url a = cf_default_stream_url b ->
  cf_admin_authorization a = cf_admin_authorization b ->
  cf_allow_unauthenticated_mounts a = cf_allow_unauthenticated_mounts b ->
  cf_mounts a = cf_mounts b -> a = b.
Proof. destruct a, b; simpl; intros; subst; reflexivity. Qed.

(** Merging is associative: merging three configurations gives the same
    result however the merges are grouped. *)
Theorem merge_assoc (a b c : ConfigFull) : merge (merge a b) c = merge a (merge b c).
Proof.
  apply config_eq; [simpl; symmetry; apply opt_or_assoc .. | |].
  - simpl. by destruct (cf_allow_unauthenticated_mounts a), (cf_allow_unauthenticated_mounts b),
      (cf_allow_unauthenticated_mounts c).
  - rewrite !merge_mounts. by rewrite map_union_assoc.
Qed.

(** The configuration that sets nothing is a unit of [Config::merge] on
    both sides, so starting the server with only [-f file] runs it with
    exactly the file's configuration. *)
Theorem merge_unit (f : ConfigFull) :
  merge f config_none = f /\ merge config_none f = f /\
  cli_into (mkCliArgs (Some f) None false None) = f.
Proof.
  assert (Hr : merge f config_none = f).
  { apply config_eq; [reflexivity .. |].
    rewrite merge_mounts. apply map_empty_union. }
  split; [exact Hr|]. split; [|exact Hr].
  apply config_eq; simpl.
  - by destruct (cf_static_source_dir f).
  - by destruct (cf_default_stream_url f).
  - by destruct (cf_admin_authorization f).
  - apply orb_false_r.
  - exact (eq_trans (merge_mounts config_none f) (map_union_empty (cf_mounts f))).
Qed.

(** The command-line settings take precedence over the configuration
    file: a set admin authorization or static directory from the command
    line wins, the unauthenticated-mounts switch is on if either turns it
    on, and the mounts and default URL policy come from the file alone. *)
Theorem cli_overrides_file (a : CliArgs) (f : ConfigFull) :
  config_file a = Some f ->
  cf_admin_authorization (cli_into a) = opt_or (cli_admin_authorization a) (cf_admin_authorization f) /\
  cf_static_source_dir (cli_into a) = opt_or (static_files_dir a) (cf_static_source_dir f) /\
  cf_allow_unauthenticated_mounts (cli_into a)
    = cli_allow_unauthenticated_mounts a || cf_allow_unauthenticated_mounts f /\
  cf_default_stream_url (cli_into a) = cf_default_stream_url f /\
  cf_mounts (cli_into a) = cf_mounts f.
Proof.
  intros Hf. unfold cli_into. rewrite Hf.
  repeat split.
Qed.

Definition file_example : ConfigFull := mkConfigFull None None (Some "file") false ∅.
Definition cli_example : CliArgs := mkCliArgs (Some file_example) (Some "cli") false None.

Lemma cli_overrides_file_witness :
  cf_admin_authorization (cli_into cli_example) = Some "cli" /\
  cf_mounts (cli_into cli_example) = ∅.
Proof.
  destruct (cli_overrides_file cli_example file_example eq_refl) as [Ha [_ [_ [_ Hm]]]].
  split; [exact Ha | exact Hm].
Defined.

(* ------------------------------------------------------------------ *)
(** ** Integer rendering and [IceMeta] *)

Lemma str_app_assoc (a b c : string) : a +:+ (b +:+ c) = (a +:+ b) +:+ c.
Proof. induction a as [|x a IH]; [reflexivity|exact (f_equal (String x) IH)]. Qed.

Lemma dec_go_app (f : nat) (n : N) (acc : string) :
  dec_go f n acc = dec_go f n EmptyString +:+ acc.
Proof.
  revert n acc. induction f as [|f IH]; intros n acc; [reflexivity|].
  simpl. destruct (n / 10 =? 0)%N; [reflexivity|].
  rewrite (IH _ (String _ acc)), (IH _ (String _ EmptyString)).
  by rewrite <- str_app_assoc.
Qed.

Lemma parse_digits_app (s1 s2 : string) (a : Z) :
  parse_digits (s1 +:+ s2) a = parse_digits s1 a ≫= fun v => parse_digits s2 v.
Proof.
  revert a. induction s1 as [|c s1 IH]; intros a; [reflexivity|].
  simpl. destruct (digit_val c); [apply IH|reflexivity].
Qed.

Lemma digit_val_char (n : N) : (n < 10)%N -> digit_val (digit_char n) = Some (Z.of_N n).
Proof.
  intros Hn. unfold digit_val, digit_char, in_range, byte_of, nat_of_ascii.
  rewrite N_ascii_embedding by lia.
  replace (Nat.leb 48 (N.to_nat (48 + n))) with true by (symmetry; apply Nat.leb_le; lia).
  replace (Nat.leb (N.to_nat (48 + n)) 57) with true by (symmetry; apply Nat.leb_le; lia).
  simpl. f_equal. lia.
Qed.

Lemma dec_go_S (f : nat) (n : N) (acc : string) :
  dec_go (S f) n acc =
  if (n / 10 =? 0)%N then String (digit_char (n mod 10)%N) acc
  else dec_go f (n / 10)%N (String (digit_char (n mod 10)%N) acc).
Proof. reflexivity. Qed.

Lemma parse_dec_go (f : nat) (n : N) (a : Z) :
  (n < 10 ^ N.of_nat (S f))%N ->
  exists k : nat,
    parse_digits (dec_go (S f) n EmptyString) a = Some (a * 10 ^ Z.of_nat (S k) + Z.of_N n)%Z.
Proof.
  revert n a. induction f as [|f IH]; intros n a Hn;
    (rewrite dec_go_S; destruct (N.eqb_spec (n / 10) 0) as [Hz|Hz];
     [exists 0%nat; simpl; rewrite digit_val_char by (apply N.mod_lt; lia);
      f_equal; rewrite N.mod_small by (apply N.div_small_iff in Hz; lia); lia|]).
  - exfalso. apply Hz. apply N.div_small. simpl in Hn. lia.
  - rewrite dec_go_app. rewrite parse_digits_app.
    destruct (IH (n / 10)%N a) as [k Hk].
    { rewrite Nat2N.inj_succ, N.pow_succ_r' in Hn.
      apply N.Div0.div_lt_upper_bound; lia. }
    rewrite Hk. exists (S k). simpl.
    rewrite digit_val_char by (apply N.mod_lt; lia). f_equal.
    rewrite (Nat2Z.inj_succ (S k)), Z.pow_succ_r by lia.
    rewrite N2Z.inj_mod, N2Z.inj_div by lia.
    pose proof (Z.div_mod (Z.of_N n) 10). pose proof (Z.mod_pos_bound (Z.of_N n) 10). lia.
Qed.

Lemma size_nat_bound (n : N) : (n < 2 ^ N.of_nat (N.size_nat n))%N.
Proof.
  destruct n as [|p]; [simpl; lia|].
  simpl. induction p as [p IH|p IH|]; cbn [Pos.size_nat];
    [rewrite Nat2N.inj_succ, N.pow_succ_r'; lia .. | simpl; lia].
Qed.

Lemma parse_dec_of_N (n : N) : parse_digits (dec_of_N n) 0 = Some (Z.of_N n).
Proof.
  destruct (parse_dec_go (N.size_nat n) n 0) as [k Hk].
  - pose proof (size_nat_bound n).
    assert (2 ^ N.of_nat (N.size_nat n) <= 10 ^ N.of_nat (N.size_nat n))%N
      by (apply N.pow_le_mono_l; lia).
    rewrite Nat2N.inj_succ, N.pow_succ_r'. lia.
  - unfold dec_of_N. rewrite Hk. f_equal; lia.
Qed.

Lemma dec_of_N_nonempty (n : N) : dec_of_N n <> EmptyString.
Proof.
  unfold dec_of_N. rewrite dec_go_S. destruct (n / 10 =? 0)%N; [discriminate|].
  rewrite dec_go_app. by destruct (dec_go _ _ EmptyString).
Qed.

Lemma parse_i32_digit (c : ascii) (r : string) :
  digit_val c <> None ->
  parse_i32 (String c r) =
  match parse_digits (String c r) 0 with
  | Some v => if (i32_min <=? v)%Z && (v <=? i32_max)%Z then Some v else None
  | None => None
  end.
Proof.
  intros Hd. destruct c as [[] [] [] [] [] [] [] []];
    solve [reflexivity | exfalso; apply Hd; reflexivity].
Qed.

Lemma parse_digits_utf8 (s : string) (a v : Z) :
  parse_digits s a = Some v -> utf8_valid s = true.
Proof.
  revert a. induction s as [|c s IH]; intros a; [reflexivity|].
  simpl. unfold digit_val. destruct (in_range 48 57 c) eqn:Hr; [|discriminate].
  unfold in_range in Hr. apply andb_prop in Hr as [_ Hr]. apply Nat.leb_le in Hr.
  assert (Nat.ltb (byte_of c) 128 = true) as -> by (apply Nat.ltb_lt; lia).
  apply IH.
Qed.

Lemma parse_i32_neg (s : string) :
  s <> "" ->
  parse_i32 ("-" +:+ s) =
  match parse_digits s 0 with
  | Some v => if (i32_min <=? - v)%Z && (- v <=? i32_max)%Z then Some (- v)%Z else None
  | None => None
  end.
Proof. intros Hs. destruct s; [done|reflexivity]. Qed.

Lemma parse_i32_z_to_dec (z : Z) :
  (i32_min <= z <= i32_max)%Z ->
  parse_i32 (z_to_dec z) = Some z /\ utf8_valid (z_to_dec z) = true /\ z_to_dec z <> "".
Proof.
  intros Hz.
  assert ((i32_min <=? z)%Z && (z <=? i32_max)%Z = true) as Hb
    by (apply andb_true_intro; split; apply Z.leb_le; lia).
  unfold z_to_dec. destruct (Z.ltb_spec z 0) as [Hneg|Hpos].
  - pose proof (parse_dec_of_N (Z.to_N (- z))) as Hp.
    pose proof (dec_of_N_nonempty (Z.to_N (- z))) as Hne.
    rewrite Z2N.id in Hp by lia.
    destruct (dec_of_N (Z.to_N (- z))) as [|c r] eqn:E; [done|].
    split; [|split; [|discriminate]].
    + rewrite parse_i32_neg by done. rewrite Hp.
      replace (- - z)%Z with z by lia. by rewrite Hb.
    + cbn [append utf8_valid]. exact (parse_digits_utf8 _ _ _ Hp).
  - pose proof (parse_dec_of_N (Z.to_N z)) as Hp.
    pose proof (dec_of_N_nonempty (Z.to_N z)) as Hne.
    rewrite Z2N.id in Hp by lia.
    destruct (dec_of_N (Z.to_N z)) as [|c r] eqn:E; [done|].
    split; [|split; [exact (parse_digits_utf8 _ _ _ Hp)|discriminate]].
    rewrite parse_i32_digit; [rewrite Hp, Hb; reflexivity|].
    intros Hc. simpl in Hp. by rewrite Hc in Hp.
Qed.

Lemma append_hdr_cons (n : string) (v : option string) (x : string) (l : list string) :
  append_hdr n v (x :: l) = x :: append_hdr n v l.
Proof. by destruct v. Qed.

Theorem ice_public_round_trip (hs : list Header) (z : Z) :
  (i32_min <= z <= i32_max)%Z ->
  find_value hs "ice-public" = Some (z_to_dec z) ->
  public (IceMeta_from hs) = Some z /\
  head (as_headers (IceMeta_from hs)) = Some ("icy-pub:" +:+ z_to_dec z).
Proof.
  intros Hz Hf. destruct (parse_i32_z_to_dec z Hz) as (Hp & Hu & Hne).
  assert (public (IceMeta_from hs) = Some z) as Hpub.
  { cbn [IceMeta_from public]. unfold extract_val. rewrite Hf.
    unfold from_utf8. rewrite Hu.
    destruct (String.eqb_spec (z_to_dec z) ""); [done|]. by rewrite Hp. }
  split; [exact Hpub|].
  unfold as_headers. rewrite Hpub. cbn [fmap option_fmap option_map append_hdr app].
  by rewrite !append_hdr_cons.
Qed.

Lemma ice_public_round_trip_witness :
  find_value [mkHeader "ice-public" "-2147483648"] "ice-public" = Some (z_to_dec (-2147483648)) /\
  public (IceMeta_from [mkHeader "ice-public" "-2147483648"]) = Some (-2147483648)%Z.
Proof.
  split; [reflexivity|].
  apply (ice_public_round_trip [mkHeader "ice-public" "-2147483648"] (-2147483648)%Z);
    [unfold i32_min, i32_max; lia | reflexivity].
Defined.

(** The static and admin handlers only receive URIs with the prefix they
    slice off, and no connector (SOURCE or GET) is ever built for a mount
    path that is [/], [/favicon.ico], [/mount_info] or starts with
    [/static/] or [/admin/]. *)
Theorem route_prefixes (uri : string) (hs : list Header) :
  match route uri hs with
  | RStatic u => starts_with "/static/" u = true
  | RMountInfo => uri = "/mount_info"
  | RAdmin u => u = uri /\ starts_with "/admin/" u = true
  | RConnector p ct a =>
      p = uri /\ starts_with "/static/" p = false /\ starts_with "/admin/" p = false /\
      p <> "/" /\ p <> "/favicon.ico" /\ p <> "/mount_info" /\
      ct = find_header hs "Content-Type" /\ a = find_header hs "Authorization"
  end.
Proof.
  unfold route.
  destruct (String.eqb_spec uri "/favicon.ico") as [->|Hf]; [reflexivity|].
  destruct (String.eqb_spec uri "/") as [->|Hr]; [reflexivity|].
  cbn [orb]. destruct (starts_with "/static/" uri) eqn:Hs; [done|].
  destruct (String.eqb_spec uri "/mount_info") as [Hm|Hm]; [done|].
  destruct (starts_with "/admin/" uri) eqn:Ha; [done|].
  repeat split; done.
Qed.

Lemma find_value_first (pre post : list Header) (n v : string) :
  Forall (fun h => h_name h <> n) pre ->
  find_value (app pre (mkHeader n v :: post)) n = Some v.
Proof.
  induction 1 as [|h pre Hh _ IH]; simpl.
  - by rewrite String.eqb_refl.
  - apply String.eqb_neq in Hh. by rewrite Hh.
Qed.

Lemma find_value_none (hs : list Header) (n : string) :
  Forall (fun h => h_name h <> n) hs -> find_value hs n = None.
Proof.
  induction 1 as [|h hs Hh _ IH]; simpl; [done|].
  apply String.eqb_neq in Hh. by rewrite Hh.
Qed.

Lemma extract_val_first {T} (parse : string -> option T) (pre post : list Header) (n v : string) :
  Forall (fun h => h_name h <> n) pre ->
  extract_val parse (app pre (mkHeader n v :: post)) n None =
  if utf8_valid v && negb (String.eqb v "") then parse v else None.
Proof.
  intros Hpre. unfold extract_val. rewrite find_value_first by done.
  unfold from_utf8. destruct (utf8_valid v); [|done]. simpl.
  destruct (String.eqb v ""); [done|]. simpl. by destruct (parse v).
Qed.

Lemma ice_string_field_extract (n : string) (f : IceMeta -> option string) (hs : list Header) :
  In (n, f) ice_string_fields -> f (IceMeta_from hs) = extract_val parse_string hs n None.
Proof.
  unfold ice_string_fields. cbn [In].
  intros Hin; repeat destruct Hin as [Hin|Hin]; try (injection Hin as <- <-; reflexivity).
  done.
Qed.

(** Each of the nine fields is read from the first header that carries
    its name, wherever it stands in the list: it is set when that value
    is non-empty UTF-8 (for [ice-public], also a valid [i32]) and empty
    otherwise, whatever later headers of that name hold; with no header of
    that name the field is empty. *)
Theorem ice_meta_first_header (hs : list Header) :
  (forall n f, In (n, f) ice_string_fields ->
     (Forall (fun h => h_name h <> n) hs -> f (IceMeta_from hs) = None) /\
     (forall pre v post, hs = app pre (mkHeader n v :: post) ->
        Forall (fun h => h_name h <> n) pre ->
        f (IceMeta_from hs) = if utf8_valid v && negb (String.eqb v "") then Some v else None)) /\
  (Forall (fun h => h_name h <> "ice-public") hs -> public (IceMeta_from hs) = None) /\
  (forall pre v post, hs = app pre (mkHeader "ice-public" v :: post) ->
     Forall (fun h => h_name h <> "ice-public") pre ->
     public (IceMeta_from hs) = if utf8_valid v && negb (String.eqb v "") then parse_i32 v else None).
Proof.
  split; [|split].
  - intros n f Hin. rewrite (ice_string_field_extract n f hs Hin). split.
    + intros Hn. unfold extract_val. by rewrite find_value_none.
    + intros pre v post -> Hpre. by rewrite extract_val_first.
  - intros Hn. cbn [IceMeta_from public IceMeta_default]. unfold extract_val.
    by rewrite find_value_none.
  - intros pre v post -> Hpre. cbn [IceMeta_from public IceMeta_default].
    by rewrite extract_val_first.
Qed.

(** On a concrete list: the first [ice-name] is empty, so the name stays
    empty although a later [ice-name] is set; the [ice-genre] value
    after an unrelated header is taken. *)
Lemma ice_meta_first_header_witness :
  let hs := [mkHeader "ice-genre" "Jazz"; mkHeader "ice-name" ""; mkHeader "ice-name" "Radio"] in
  name (IceMeta_from hs) = None /\ genre (IceMeta_from hs) = Some "Jazz".
Proof.
  intros hs. destruct (ice_meta_first_header hs) as [Hf _]. split.
  - destruct (Hf "ice-name" name) as [_ H]; [simpl; tauto|].
    rewrite (H [mkHeader "ice-genre" "Jazz"] "" [mkHeader "ice-name" "Radio"]).
    + vm_compute. reflexivity.
    + reflexivity.
    + constructor; [discriminate | constructor].
  - destruct (Hf "ice-genre" genre) as [_ H]; [simpl; tauto|].
    rewrite (H [] "Jazz" [mkHeader "ice-name" ""; mkHeader "ice-name" "Radio"]).
    + vm_compute. reflexivity.
    + reflexivity.
    + constructor.
Defined.

(* ------------------------------------------------------------------ *)
(** ** Startup, statistics and the reaper *)

Lemma lookup_foldl_stats (w : World) (l : list (string * Mount)) (acc : gmap string Stats) (k : string) :
  NoDup l.*1 ->
  foldl (fun map (nm : string * Mount) => <[nm.1 := stats w nm.2]> map) acc l !! k =
  match (list_to_map l : gmap string Mount) !! k with
  | Some m => Some (stats w m)
  | None => acc !! k
  end.
Proof.
  revert acc. induction l as [|[k' m'] l IH]; intros acc Hnd; [done|].
  apply NoDup_cons in Hnd as [Hk Hl]. cbn [foldl fst snd]. rewrite IH by done.
  simpl. destruct (decide (k = k')) as [->|Hne].
  - rewrite lookup_insert_eq. rewrite not_elem_of_list_to_map_1 by done.
    by rewrite lookup_insert_eq.
  - rewrite !lookup_insert_ne by congruence. done.
Qed.

Theorem get_mount_stats_fmap (w : World) : get_mount_stats w = stats w <$> mounts w.
Proof.
  apply map_eq. intros k. unfold get_mount_stats.
  rewrite lookup_foldl_stats by apply NoDup_fst_map_to_list.
  rewrite list_to_map_to_list, lookup_fmap.
  by destruct (mounts w !! k).
Qed.

Lemma register_closed (w : World) (nc : string * MountConfig) :
  closed_mounts w -> closed_mounts (register_configured w nc).
Proof.
  destruct nc as [n mc]. intros Hw k m. unfold register_configured, add_mount. simpl.
  destruct (decide (sub_sender m = next_chan w)) as [Hs|Hs];
  destruct (decide (stat_receiver m = next_chan w)) as [Hr|Hr].
  - rewrite Hs, Hr, !lookup_insert_eq. by destruct (mounts w !! n).
  - destruct (mounts w !! n) eqn:En; simpl; intros Hk.
    + destruct (Hw _ _ Hk) as [_ H2]. rewrite Hs, lookup_insert_eq, lookup_insert_ne by done. done.
    + destruct (decide (k = n)) as [->|Hne].
      * rewrite lookup_insert_eq in Hk. injection Hk as <-. simpl in Hr. done.
      * rewrite lookup_insert_ne in Hk by done. destruct (Hw _ _ Hk) as [_ H2].
        rewrite Hs, lookup_insert_eq, lookup_insert_ne by done. done.
  - destruct (mounts w !! n) eqn:En; simpl; intros Hk.
    + destruct (Hw _ _ Hk) as [H1 _]. rewrite Hr, lookup_insert_eq, lookup_insert_ne by done. done.
    + destruct (decide (k = n)) as [->|Hne].
      * rewrite lookup_insert_eq in Hk. injection Hk as <-. simpl in Hs. done.
      * rewrite lookup_insert_ne in Hk by done. destruct (Hw _ _ Hk) as [H1 _].
        rewrite Hr, lookup_insert_eq, lookup_insert_ne by done. done.
  - destruct (mounts w !! n) eqn:En; simpl; intros Hk.
    + rewrite !lookup_insert_ne by done. exact (Hw _ _ Hk).
    + destruct (decide (k = n)) as [->|Hne].
      * rewrite lookup_insert_eq in Hk. injection Hk as <-. simpl in Hs. done.
      * rewrite lookup_insert_ne in Hk by done. rewrite !lookup_insert_ne by done. exact (Hw _ _ Hk).
Qed.

Lemma register_lookup (w : World) (n : string) (mc : MountConfig) (k : string) :
  mounts (register_configured w (n, mc)) !! k =
  match mounts w !! k with
  | Some m => Some m
  | None =>
      if bool_decide (k = n) then
        Some (Mount_new "" (next_chan w) (next_chan w) (mc_source_auth mc) (mc_sub_auth mc)
                (mc_permanent mc) IceMeta_default)
      else None
  end.
Proof.
  unfold register_configured, add_mount. simpl.
  destruct (mounts w !! n) as [m0|] eqn:En; simpl.
  - destruct (mounts w !! k) eqn:Ek; [done|]. case_bool_decide; congruence.
  - destruct (decide (k = n)) as [->|Hne].
    + rewrite lookup_insert_eq, En. by rewrite bool_decide_true.
    + rewrite lookup_insert_ne by done. destruct (mounts w !! k); [done|].
      by rewrite bool_decide_false.
Qed.

Lemma fold_register_keep (l : list (string * MountConfig)) (w : World) (k : string) (m : Mount) :
  mounts w !! k = Some m -> mounts (foldl register_configured w l) !! k = Some m.
Proof.
  revert w. induction l as [|[n mc] l IH]; intros w Hk; [done|].
  cbn [foldl]. apply IH. by rewrite register_lookup, Hk.
Qed.

Lemma fold_register_absent (l : list (string * MountConfig)) (w : World) (k : string) :
  k ∉ l.*1 -> mounts (foldl register_configured w l) !! k = mounts w !! k.
Proof.
  revert w. induction l as [|[n mc] l IH]; intros w Hk; [done|].
  cbn [foldl]. rewrite IH by set_solver. rewrite register_lookup.
  destruct (mounts w !! k); [done|]. rewrite bool_decide_false; [done|]. set_solver.
Qed.

Lemma fold_register_new (l : list (string * MountConfig)) (w : World) (k : string) (mc : MountConfig) :
  NoDup l.*1 -> (k, mc) ∈ l -> mounts w !! k = None ->
  exists c, mounts (foldl register_configured w l) !! k =
    Some (Mount_new "" c c (mc_source_auth mc) (mc_sub_auth mc) (mc_permanent mc) IceMeta_default).
Proof.
  revert w. induction l as [|[n mc'] l IH]; intros w Hnd Hin Hk; [set_solver|].
  apply NoDup_cons in Hnd as [Hn Hl]. cbn [foldl].
  apply elem_of_cons in Hin as [Heq|Hin].
  - injection Heq as -> ->. exists (next_chan w). apply fold_register_keep.
    rewrite register_lookup, Hk. by rewrite bool_decide_true.
  - apply IH; [done|done|]. rewrite register_lookup, Hk.
    rewrite bool_decide_false; [done|]. intros ->. apply Hn.
    apply list_elem_of_fmap. by exists (n, mc).
Qed.

Lemma fold_register_closed (l : list (string * MountConfig)) (w : World) :
  closed_mounts w -> closed_mounts (foldl register_configured w l).
Proof.
  revert w. induction l as [|nc l IH]; intros w Hw; [done|].
  cbn [foldl]. apply IH, register_closed, Hw.
Qed.

(** [main] registers every configured mount: not connected, no content
    type, no song, the default metadata, zero statistics, and the
    configured credentials and permanence; no other mount exists. *)
Theorem startup_state_mounts (cfg : ConfigFull) (k : string) :
  let w := startup_state cfg in
  match cf_mounts cfg !! k with
  | Some mc =>
      exists m, mounts w !! k = Some m /\
        content_type m = "" /\ source_auth m = mc_source_auth mc /\
        sub_auth m = mc_sub_auth mc /\ permanent m = mc_permanent mc /\
        song m = None /\ meta m = IceMeta_default /\
        is_connected w m = false /\ stats w m = Stats_new
  | None => mounts w !! k = None
  end.
Proof.
  simpl. unfold startup_state.
  set (w0 := mkWorld ∅ ∅ ∅ ∅ ∅ 0).
  assert (Hc : closed_mounts (foldl register_configured w0 (map_to_list (cf_mounts cfg)))).
  { apply fold_register_closed. intros k' m'. simpl. by rewrite lookup_empty. }
  destruct (cf_mounts cfg !! k) as [mc|] eqn:Ek.
  - destruct (fold_register_new (map_to_list (cf_mounts cfg)) w0 k mc) as [c Hm].
    + apply NoDup_fst_map_to_list.
    + by apply elem_of_map_to_list.
    + apply lookup_empty.
    + eexists. split; [exact Hm|]. destruct (Hc _ _ Hm) as [H1 H2].
      unfold is_connected, stats. rewrite H1, H2. repeat split.
  - rewrite fold_register_absent; [apply lookup_empty|].
    intros Hin. apply list_elem_of_fmap in Hin as [[k' mc] [Heq Hin]]. simpl in Heq; subst k'.
    apply elem_of_map_to_list in Hin. congruence.
Qed.

Lemma clean_lookup (w : World) (k : string) :
  mounts (fst (clean_disconnected_mounts w)) !! k =
  match mounts w !! k with
  | Some m => if removable w m then None else Some m
  | None => None
  end.
Proof.
  unfold clean_disconnected_mounts; simpl. rewrite lookup_foldl_delete.
  destruct (mounts w !! k) as [m|] eqn:Hk.
  - case_bool_decide as Hin.
    + apply list_elem_of_fmap in Hin as [[k' m'] [Heq Hin]]. simpl in Heq; subst k'.
      apply list_elem_of_filter in Hin as [HP Hin].
      apply elem_of_map_to_list in Hin. rewrite Hk in Hin. injection Hin as <-.
      simpl in HP. by rewrite HP.
    + destruct (removable w m) eqn:Hr; [|done]. exfalso. apply Hin.
      apply list_elem_of_fmap. exists (k, m). split; [done|].
      apply list_elem_of_filter. split; [done|]. by apply elem_of_map_to_list.
  - case_bool_decide as Hin; [|done].
    apply list_elem_of_fmap in Hin as [[k' m'] [Heq Hin]]. simpl in Heq; subst k'.
    apply list_elem_of_filter in Hin as [_ Hin].
    apply elem_of_map_to_list in Hin. congruence.
Qed.

(** A registered mount that keeps its permanence and credentials. *)
Definition mount_kept (k : string) (p : bool) (sa su : option string) (w : World) : Prop :=
  exists m, mounts w !! k = Some m /\ permanent m = p /\ source_auth m = sa /\ sub_auth m = su.

Lemma parse_keeps_mount (cfg : Config) (w : World) (race : bool) (method p : string)
    (ct authorization : option string) (hs : list Header) (k : string) (m : Mount) :
  mounts w !! k = Some m ->
  mount_kept k (permanent m) (source_auth m) (sub_auth m)
    (fst (parse cfg w race method p ct authorization hs)).
Proof.
  intros Hk. unfold parse.
  repeat case_match; simpl; try (by exists m).
  - unfold mount_kept; simpl. destruct (decide (p = k)) as [->|Hne].
    + rewrite lookup_alter, decide_True, Hk by done. eexists. split; [reflexivity|]. repeat split.
    + rewrite lookup_alter, decide_False by done. by exists m.
  - unfold mount_kept, add_mount; simpl. destruct (mounts w !! p) eqn:Ep; simpl; [by exists m|].
    rewrite lookup_insert_ne; [by exists m|]. congruence.
Qed.

Lemma admin_keeps_mount (cfg : Config) (w w' : World) (uri : string) (hs : list Header)
    (rs : list BasicHttpResponse) (k : string) (m : Mount) :
  admin cfg w uri hs = Ret (w', rs) -> mounts w !! k = Some m ->
  mount_kept k (permanent m) (source_auth m) (sub_auth m) w'.
Proof.
  intros Ha Hk. unfold admin in Ha.
  repeat case_match; simplify_eq/=; try (by exists m).
  unfold mount_kept; simpl.
  match goal with |- context [alter _ ?n _] => destruct (decide (k = n)) as [->|Hne] end.
  - rewrite lookup_alter, decide_True, Hk by done. eexists. split; [reflexivity|]. repeat split.
  - rewrite lookup_alter, decide_False by congruence. by exists m.
Qed.

Lemma server_step_keeps (cfg : ConfigFull) (k : string) (sa su : option string) (w w' : World) :
  server_step cfg w w' -> mount_kept k true sa su w -> mount_kept k true sa su w'.
Proof.
  intros Hs (m & Hk & Hp & Ha & Hu). destruct Hs as [w race method p ct a hs|w uri hs w' rs Hadm|w|w w' Heq].
  - rewrite <- Hp, <- Ha, <- Hu. by apply parse_keeps_mount.
  - rewrite <- Hp, <- Ha, <- Hu. by eapply admin_keeps_mount.
  - exists m. rewrite clean_lookup, Hk. unfold removable. rewrite Hp, orb_true_r. done.
  - exists m. by rewrite Heq.
Qed.

(** A mount configured as permanent is registered by [main] and stays
    registered for good, with the configured permanence and credentials,
    whatever connections, admin requests, reaper rounds and task ends
    happen afterwards, in whatever order. *)
Theorem permanent_mount_stays (cfg : ConfigFull) (k : string) (mc : MountConfig) (w : World) :
  cf_mounts cfg !! k = Some mc -> mc_permanent mc = true ->
  rtc (server_step cfg) (startup_state cfg) w ->
  exists m, mounts w !! k = Some m /\ permanent m = true /\
            source_auth m = mc_source_auth mc /\ sub_auth m = mc_sub_auth mc.
Proof.
  intros Hk Hp Hr. fold (mount_kept k true (mc_source_auth mc) (mc_sub_auth mc) w).
  assert (H0 : mount_kept k true (mc_source_auth mc) (mc_sub_auth mc) (startup_state cfg)).
  { destruct (fold_register_new (map_to_list (cf_mounts cfg)) (mkWorld ∅ ∅ ∅ ∅ ∅ 0) k mc)
      as [c Hm].
    - apply NoDup_fst_map_to_list.
    - by apply elem_of_map_to_list.
    - apply lookup_empty.
    - eexists. unfold startup_state. split; [exact Hm|]. by rewrite <- Hp. }
  induction Hr as [w0|w0 w1 w2 Hs _ IH]; [exact H0|].
  apply IH. by eapply server_step_keeps.
Qed.

Definition radio_mc : MountConfig := mkMountConfig (Some "S") None None true.

Definition radio_cfg : ConfigFull := mkConfigFull None None None false {[ "/radio" := radio_mc ]}.

(** A source attaches to [/radio], its task ends, then the reaper runs. *)
Definition radio_after : World :=
  let w1 := fst (parse (handler_config radio_cfg) (startup_state radio_cfg) false "SOURCE" "/radio"
                   (Some "audio/ogg") (Some "S") []) in
  fst (clean_disconnected_mounts (drop_sub_rx w1 (next_chan (startup_state radio_cfg)))).

Lemma permanent_mount_stays_witness :
  exists m, mounts radio_after !! "/radio" = Some m /\ permanent m = true /\
            source_auth m = Some "S" /\ sub_auth m = None.
Proof.
  apply (permanent_mount_stays radio_cfg "/radio" radio_mc radio_after).
  - reflexivity.
  - reflexivity.
  - unfold radio_after.
    set (w1 := fst (parse (handler_config radio_cfg) (startup_state radio_cfg) false "SOURCE"
                      "/radio" (Some "audio/ogg") (Some "S") [])).
    set (w2 := drop_sub_rx w1 (next_chan (startup_state radio_cfg))).
    apply (rtc_l _ _ w1); [apply step_connect|].
    apply (rtc_l _ _ w2); [apply step_outside; reflexivity|].
    apply rtc_once, step_reaper.
Defined.

(* ------------------------------------------------------------------ *)
(** ** Connector attach: frame, credentials, lifecycle *)

(** [Connector::parse] touches at most the requested mount, only SOURCE
    changes the registry, and a request that is refused changes nothing. *)
Theorem parse_frame (cfg : Config) (w : World) (race : bool) (method p : string)
    (ct authorization : option string) (hs : list Header) :
  let '(w', r) := parse cfg w race method p ct authorization hs in
  (forall k, k <> p -> mounts w' !! k = mounts w !! k) /\
  (method <> "SOURCE" -> mounts w' = mounts w) /\
  (forall e, r = inr e -> w' = w).
Proof.
  destruct (String.eqb_spec method "SOURCE") as [->|Hs].
  - destruct ct as [ct|]; [|simpl; split; [done|split; [done|done]]].
    rewrite parse_source. destruct (mounts w !! p) as [m|] eqn:Hm.
    + destruct (_ && _); [split; [done|split; [done|]]; done|].
      destruct (is_connected w m); [split; [done|split; [done|]]; done|].
      split; [|split; [done|discriminate]].
      intros k Hk. simpl. by rewrite lookup_alter_ne.
    + destruct (_ && _); [split; [done|split; [done|]]; done|].
      split; [|split; [done|discriminate]].
      intros k Hk. simpl. unfold add_mount. simpl. rewrite Hm. simpl.
      by rewrite lookup_insert_ne.
  - assert (Hm : forall w' r, parse cfg w race method p ct authorization hs = (w', r) ->
                 mounts w' = mounts w /\ (forall e, r = inr e -> w' = w)).
    { intros w' r. unfold parse. apply String.eqb_neq in Hs. rewrite Hs.
      destruct (String.eqb method "GET"); [|intros Heq; injection Heq as <- <-; done].
      destruct (mounts w !! p) as [m|]; [|intros Heq; injection Heq as <- <-; done].
      destruct (_ && _); [intros Heq; injection Heq as <- <-; done|].
      destruct (negb (is_connected w m)); [intros Heq; injection Heq as <- <-; done|].
      intros Heq; injection Heq as <- <-. split; [|discriminate].
      by destruct race. }
    destruct (parse cfg w race method p ct authorization hs) as [w' r] eqn:Hp.
    destruct (Hm w' r eq_refl) as [H1 H2].
    split; [intros k _; by rewrite H1|]. split; [done|exact H2].
Qed.

(** The Authorization of the admin account passes the source check of
    every mount but not a mount's subscriber credential. *)
Theorem admin_credentials_scope (cfg : Config) (w : World) (race : bool) (p ct : string)
    (get_ct : option string) (a : option string) (hs : list Header) (m : Mount) (s : string) :
  is_admin_of cfg a = true ->
  snd (parse cfg w race "SOURCE" p (Some ct) a hs) <> inr Unauthorized /\
  (mounts w !! p = Some m -> sub_auth m = Some s -> a <> Some s ->
   parse cfg w race "GET" p get_ct a hs = (w, inr Unauthorized)).
Proof.
  intros Ha. split.
  - rewrite parse_source, Ha. simpl.
    destruct (mounts w !! p) as [m'|]; simpl; [|discriminate].
    destruct (is_connected w m'); discriminate.
  - intros Hm Hs Hne. rewrite parse_get, Hm, Hs.
    rewrite bool_decide_true by done. rewrite bool_decide_false by congruence. done.
Qed.

(** A mount created by SOURCE takes the request's Authorization as its
    source credential, is connected, and survives the reaper; once its
    source task ends the reaper removes it, and until then a new SOURCE
    is let in exactly when it is the admin, the mount had no credential,
    or it presents the same one. *)
Theorem source_created_mount_lifecycle (cfg : Config) (w : World) (race race' : bool)
    (p ct ct' : string) (a b : option string) (hs hs' : list Header) :
  mounts w !! p = None ->
  is_admin_of cfg a = true \/ allow_unauthenticated_mounts cfg = true ->
  let w1 := fst (parse cfg w race "SOURCE" p (Some ct) a hs) in
  let w2 := drop_sub_rx w1 (next_chan w) in
  (exists m, mounts w1 !! p = Some m /\ source_auth m = a /\ sub_auth m = None /\
             permanent m = false /\ song m = None /\ is_connected w1 m = true) /\
  is_Some (mounts (fst (clean_disconnected_mounts w1)) !! p) /\
  mounts (fst (clean_disconnected_mounts w2)) !! p = None /\
  ((exists k, snd (parse cfg w2 race' "SOURCE" p (Some ct') b hs') = inl k) <->
   is_admin_of cfg b = true \/ a = None \/ a = b).
Proof.
  intros Hp Hauth w1 w2.
  assert (Hg : negb (is_admin_of cfg a) && negb (allow_unauthenticated_mounts cfg) = false).
  { destruct Hauth as [-> | ->]; [done|]. by rewrite andb_false_r. }
  set (c := next_chan w) in *.
  set (m := Mount_new ct c c a None false (IceMeta_from hs)).
  assert (Hm : mounts w1 !! p = Some m).
  { unfold w1. rewrite parse_source, Hp, Hg. simpl. unfold add_mount. simpl. rewrite Hp. simpl.
    by rewrite !lookup_insert_eq. }
  assert (Hc : sub_rx_alive w1 !! c = Some true).
  { unfold w1. rewrite parse_source, Hp, Hg. simpl. by rewrite !lookup_insert_eq. }
  assert (Hcon : is_connected w1 m = true) by (unfold is_connected; simpl; by rewrite Hc).
  split; [|split; [|split]].
  - exists m. split; [done|]. repeat split. exact Hcon.
  - rewrite clean_lookup, Hm. unfold removable. by rewrite Hcon.
  - rewrite clean_lookup. unfold w2, drop_sub_rx. simpl. rewrite Hm.
    unfold removable, is_connected. simpl. by rewrite lookup_insert_eq.
  - rewrite parse_source. unfold w2 at 1. simpl. rewrite Hm.
    assert (Hoff : is_connected w2 m = false)
      by (unfold is_connected; simpl; by rewrite lookup_insert_eq).
    rewrite Hoff. simpl.
    destruct (is_admin_of cfg b) eqn:Hb; simpl.
    + split; [intros _; by left|]. intros _. by eexists.
    + repeat case_bool_decide; simpl; split; intros Hx;
        try (by eexists); try (destruct Hx as [k Hk]; discriminate);
        intuition congruence.
Qed.

Lemma admin_gate_authorized (cfg : Config) (auth : string) (m : Mount) :
  negb (bool_decide (is_Some (admin_authorization cfg)) &&
        bool_decide (Some auth = admin_authorization cfg)) &&
  bool_decide (is_Some (source_auth m)) &&
  negb (bool_decide (source_auth m = Some auth)) = false ->
  source_authorized cfg (Some auth) m.
Proof.
  unfold source_authorized, is_admin_of.
  destruct (bool_decide (is_Some (admin_authorization cfg)) &&
            bool_decide (Some auth = admin_authorization cfg)); simpl; [by left|].
  intros Hg. right. destruct (source_auth m) as [sa|]; [right|by left].
  rewrite bool_decide_true in Hg by done. simpl in Hg.
  by apply negb_false_iff, bool_decide_eq_true in Hg.
Qed.

(** A run of [admin] that returns either answers and changes nothing, or
    answers nothing and sets the song of one registered mount whose source
    credential the caller presented (or that has none, or the caller is
    the admin).  A run panics only on a [metadata?] request carrying an
    Authorization header, when the first query piece for [mount=], [mode=]
    or [song=] percent-decodes to invalid UTF-8; [Panic] carries no
    registry, as the panic comes before the write-locked [set_song]. *)
Theorem admin_frame (cfg : Config) (w : World) (uri : string) (hs : list Header) :
  match admin cfg w uri hs with
  | Ret (w', rs) =>
      (rs <> [] /\ w' = w) \/
      (rs = [] /\ exists auth n m s,
         find_header hs "Authorization" = Some auth /\
         mounts w !! n = Some m /\
         source_authorized cfg (Some auth) m /\
         w' = set_mounts w (<[n := set_song s m]> (mounts w)))
  | Panic =>
      exists auth key v,
        find_header hs "Authorization" = Some auth /\
        starts_with "metadata?" (str_drop (String.length "/admin/") uri) = true /\
        In key ["mount="; "mode="; "song="] /\
        List.find (starts_with key)
          (split_on "&" (str_drop (String.length "metadata?") (str_drop (String.length "/admin/") uri)))
          = Some v /\
        utf8_valid (decode_bytes (str_drop (String.length key) v)) = false
  end.
Proof.
  unfold admin. repeat case_match; simplify_eq/=; try (left; by split);
    try (match goal with
         | Ha : find_header _ _ = Some ?auth, Hk : find_key _ ?key = Panic |- _ =>
             unfold find_key in Hk;
             destruct (List.find _ _) as [v|] eqn:Ef in Hk; [|discriminate];
             destruct (from_utf8 _) eqn:Eu in Hk; [discriminate|];
             exists auth, key, v; split; [done|]; split; [done|];
             split; [simpl; tauto|]; split; [exact Ef|];
             unfold from_utf8 in Eu; by destruct (utf8_valid _)
         end).
  right. split; [done|].
  match goal with
  | Ha : find_header _ _ = Some ?auth, Hm : mounts w !! ?n = Some ?m,
    Hg : negb _ && _ && _ = false |- context [alter (set_song ?s) _ _] =>
      exists auth, n, m, s; split; [done|]; split; [exact Hm|]; split;
      [revert Hg | revert Hm]
  end.
  - apply admin_gate_authorized.
  - intros Hm. f_equal. apply map_eq. intros k. rewrite lookup_alter.
    destruct (decide (_ = k)) as [<-|Hne].
    + by rewrite Hm, lookup_insert_eq.
    + by rewrite lookup_insert_ne.
Qed.

(* ------------------------------------------------------------------ *)
(** ** Admin panic and static-file paths *)

Lemma str_drop_app (p s : string) : str_drop (String.length p) (p +:+ s) = s.
Proof. induction p as [|c p IH]; [done|exact IH]. Qed.

Lemma starts_with_app (p s : string) : starts_with p (p +:+ s) = true.
Proof.
  induction p as [|c p IH]; [done|]. simpl. destruct (ascii_dec c c); [exact IH|congruence].
Qed.

(** A [metadata?] query whose first [mount=] piece percent-decodes to
    invalid UTF-8 makes [admin] panic as soon as an Authorization header
    is present, whatever its value, whatever the other query pieces and
    wherever the [mount=] piece stands, before any credential is checked. *)
Theorem admin_mount_not_utf8_panics (cfg : Config) (w : World) (hs : list Header)
    (auth q v : string) :
  find_header hs "Authorization" = Some auth ->
  List.find (starts_with "mount=") (split_on "&" q) = Some v ->
  utf8_valid (decode_bytes (str_drop (String.length "mount=") v)) = false ->
  admin cfg w ("/admin/metadata?" +:+ q) hs = Panic.
Proof.
  intros Ha Hf Hu. unfold admin. rewrite Ha.
  change ("/admin/metadata?" +:+ q) with ("/admin/" +:+ ("metadata?" +:+ q)).
  rewrite !str_drop_app, starts_with_app. unfold find_key. rewrite Hf.
  unfold from_utf8. by rewrite Hu.
Qed.

Lemma admin_mount_not_utf8_panics_witness :
  admin (mkConfig None (Some "X") false) (mkWorld ∅ ∅ ∅ ∅ ∅ 0)
    ("/admin/metadata?" +:+ "mode=updinfo&mount=%FF") [mkHeader "Authorization" "anything"] = Panic.
Proof.
  apply (admin_mount_not_utf8_panics _ _ _ "anything" "mode=updinfo&mount=%FF" "mount=%FF").
  - reflexivity.
  - vm_compute. reflexivity.
  - vm_compute. reflexivity.
Defined.

(** [PathBuf::push] of an absolute path replaces the static directory: a
    request for [/static//p] passes the segment check and serves the file
    [/p] of the whole file system. *)
Theorem static_file_absolute_path (cfg : Config) (fs : Fs) (mime : string -> string)
    (dir p : string) (len : nat) (blocks : list string) :
  static_source_dir cfg = Some dir ->
  existsb bad_segment (split_on "/" ("/" +:+ p)) = false ->
  fs_metadata fs ("/" +:+ p) = Some (false, len) ->
  fs_open fs ("/" +:+ p) = Some blocks ->
  static_file cfg fs mime ("/static//" +:+ p) =
  Metadata ("/" +:+ p) :: Open ("/" +:+ p) ::
  Send (resp_ok ["Content-Length: " +:+ dec_of_N (N.of_nat len);
                 "Content-Type: " +:+ mime ("/" +:+ p)]) ::
  map WriteBytes blocks.
Proof.
  intros Hd Hb Hm Ho. unfold static_file.
  change ("/static//" +:+ p) with ("/static/" +:+ ("/" +:+ p)).
  rewrite str_drop_app, Hd, Hb. simpl negb.
  unfold path_push. rewrite starts_with_app. cbn iota.
  by rewrite Hm, Ho.
Qed.

Definition etc_fs : Fs := mkFs (fun _ => Some (false, 5)) (fun _ => Some ["root:"]).

Lemma static_file_absolute_path_witness :
  static_file (mkConfig (Some "/srv/static") None false) etc_fs (fun _ => "text/plain")
    ("/static//" +:+ "etc/passwd") =
  Metadata "/etc/passwd" :: Open "/etc/passwd" ::
  Send (resp_ok ["Content-Length: " +:+ dec_of_N 5; "Content-Type: text/plain"]) ::
  [WriteBytes "root:"].
Proof.
  exact (static_file_absolute_path (mkConfig (Some "/srv/static") None false) etc_fs
           (fun _ => "text/plain") "/srv/static" "etc/passwd" 5 ["root:"]
           eq_refl eq_refl eq_refl eq_refl).
Defined.

(* ------------------------------------------------------------------ *)
(** ** Source pump counters *)

Lemma send_all_fold (closed : list nat) (bytes : nat) (l : list nat) (c bi bo : nat) (f : bool) :
  List.length l - List.length (open_subs closed l) <= c ->
  foldl (fun '(st, flag) sub =>
           if closed_in closed sub then
             (mkStats (sub_count st - 1) (bytes_in st) (bytes_out st), true)
           else (mkStats (sub_count st) (bytes_in st) (bytes_out st + bytes), flag))
        (mkStats c bi bo, f) l =
  (mkStats (c - (List.length l - List.length (open_subs closed l))) bi
           (bo + bytes * List.length (open_subs closed l)),
   f || existsb (closed_in closed) l).
Proof.
  revert c bo f. induction l as [|x l IH]; intros c bo f Hc.
  - simpl. rewrite orb_false_r. do 2 f_equal; lia.
  - cbn [foldl]. unfold open_subs in *. cbn [List.filter List.length existsb] in *.
    pose proof (List.filter_length_le (fun sub => negb (closed_in closed sub)) l).
    destruct (closed_in closed x); cbn [negb orb sub_count bytes_in bytes_out List.length] in *.
    + rewrite IH by lia. rewrite orb_true_r. do 2 f_equal; lia.
    + rewrite IH by lia. do 2 f_equal; lia.
Qed.

Lemma send_all_checked_none (W : nat) (closed : list nat) (bytes : nat) (l : list nat) :
  foldl (send_step_checked W closed bytes) None l = None.
Proof. induction l as [|x l IH]; [done|exact IH]. Qed.

Lemma send_all_checked_fold (W : nat) (closed : list nat) (bytes : nat) (l : list nat)
    (c bi bo : nat) (f : bool) :
  (List.length l - List.length (open_subs closed l) <= c)%nat -> (bo < 2 ^ W)%nat ->
  foldl (send_step_checked W closed bytes) (Some (mkStats c bi bo, f)) l =
  if (bo + bytes * List.length (open_subs closed l) <? 2 ^ W)%nat then
    Some (mkStats (c - (List.length l - List.length (open_subs closed l))) bi
                  (bo + bytes * List.length (open_subs closed l)),
          f || existsb (closed_in closed) l)
  else None.
Proof.
  revert c bo f. induction l as [|x l IH]; intros c bo f Hc Hbo.
  - simpl. rewrite orb_false_r. replace (bo + bytes * 0)%nat with bo by lia.
    destruct (Nat.ltb_spec bo (2 ^ W)); [|lia]. do 3 f_equal; lia.
  - cbn [foldl]. unfold open_subs in *. cbn [List.filter List.length existsb] in *.
    pose proof (List.filter_length_le (fun sub => negb (closed_in closed sub)) l).
    set (n := List.length (List.filter (fun sub => negb (closed_in closed sub)) l)) in *.
    unfold send_step_checked at 2.
    destruct (closed_in closed x); cbn [negb orb sub_count bytes_in bytes_out List.length] in *.
    + unfold usize_sub. destruct (Nat.leb_spec 1 c); [|lia].
      rewrite IH by lia. rewrite orb_true_r.
      destruct (_ <? _)%nat; [|done]. do 3 f_equal; lia.
    + unfold usize_add. destruct (Nat.ltb_spec (bo + bytes) (2 ^ W)) as [Hlt|Hge].
      * rewrite IH by lia.
        replace (bo + bytes + bytes * n)%nat with (bo + bytes * S n)%nat by lia.
        destruct (_ <? _)%nat; [|done]. do 3 f_equal; lia.
      * rewrite send_all_checked_none.
        destruct (_ <? _)%nat eqn:E; [apply Nat.ltb_lt in E; lia|done].
Qed.

(** The send loop of [do_data_mirroring] in [W]-bit [usize] arithmetic with
    the overflow checks of a debug build: it panics exactly when the new
    [bytes_out] total would not fit in [usize]; otherwise the subscriber
    count ends as the number of subscribers still open (the decrement
    never underflows), every open one adds the block size to [bytes_out],
    [bytes_in] is untouched, [subs_to_remove] is set exactly when some
    subscriber is closed, and the result is the one of [send_all] over
    unbounded counters. *)
Theorem send_all_counts (W : nat) (closed : list nat) (bytes : nat) (subs : list nat)
    (st : Stats) :
  (bytes_out st < 2 ^ W)%nat ->
  send_all_checked W closed bytes subs st =
  (if (bytes_out st + bytes * List.length (open_subs closed subs) <? 2 ^ W)%nat then
     Some (send_all closed bytes subs st) else None) /\
  send_all closed bytes subs st =
  (mkStats (List.length (open_subs closed subs)) (bytes_in st)
           (bytes_out st + bytes * List.length (open_subs closed subs)),
   existsb (closed_in closed) subs).
Proof.
  intros Hbo.
  pose proof (List.filter_length_le (fun sub => negb (closed_in closed sub)) subs).
  assert (Hs : send_all closed bytes subs st =
    (mkStats (List.length (open_subs closed subs)) (bytes_in st)
             (bytes_out st + bytes * List.length (open_subs closed subs)),
     existsb (closed_in closed) subs)).
  { unfold send_all. rewrite send_all_fold by lia. unfold open_subs in *. do 2 f_equal; lia. }
  split; [|exact Hs]. rewrite Hs. unfold send_all_checked.
  rewrite send_all_checked_fold by lia. unfold open_subs in *.
  destruct (_ <? _)%nat; [|done]. do 3 f_equal; lia.
Qed.

(** A read of 10 bytes with sinks 1, 2, 3 of which 2 has gone: in 6-bit
    [usize] the counters fit and the loop gives the exact totals; in 5-bit
    [usize] the [bytes_out] total 15 + 20 overflows. *)
Lemma send_all_counts_witness :
  send_all_checked 6 [2] 10 [1; 2; 3] (mkStats 0 10 15) = Some (mkStats 2 10 35, true) /\
  send_all_checked 5 [2] 10 [1; 2; 3] (mkStats 0 10 15) = None.
Proof.
  split.
  - destruct (send_all_counts 6 [2] 10 [1; 2; 3] (mkStats 0 10 15)) as [H1 H2];
      [simpl; lia|].
    rewrite H1, H2. reflexivity.
  - destruct (send_all_counts 5 [2] 10 [1; 2; 3] (mkStats 0 10 15)) as [H1 _];
      [simpl; lia|].
    rewrite H1. reflexivity.
Defined.

Definition adm_cfg : Config := mkConfig None (Some "root") true.

Definition listen_mount : Mount :=
  Mount_new "audio/mpeg" 0 0 (Some "S") (Some "listen") false IceMeta_default.

Definition listen_world : World :=
  mkWorld {[ "/live" := listen_mount ]} {[ 0 := true ]} {[ 0 := [] ]} {[ 0 := Stats_new ]} ∅ 1.

Lemma admin_credentials_scope_witness :
  is_admin_of adm_cfg (Some "root") = true /\
  parse adm_cfg listen_world false "GET" "/live" None (Some "root") [] =
  (listen_world, inr Unauthorized).
Proof.
  split; [reflexivity|].
  apply (proj2 (admin_credentials_scope adm_cfg listen_world false "/live" "audio/mpeg" None
                  (Some "root") [] listen_mount "listen" eq_refl)).
  - reflexivity.
  - reflexivity.
  - discriminate.
Defined.

Definition fresh_world : World := mkWorld ∅ ∅ ∅ ∅ ∅ 0.

Lemma source_created_mount_lifecycle_witness :
  mounts fresh_world !! "/live" = None /\
  mounts (fst (clean_disconnected_mounts
    (drop_sub_rx (fst (parse adm_cfg fresh_world false "SOURCE" "/live" (Some "audio/mpeg")
                          (Some "pw") [])) 0))) !! "/live" = None.
Proof.
  split; [reflexivity|].
  destruct (source_created_mount_lifecycle adm_cfg fresh_world false false "/live" "audio/mpeg"
              "audio/ogg" (Some "pw") (Some "other") [] [])
    as (_ & _ & H & _).
  - reflexivity.
  - right. reflexivity.
  - exact H.
Defined.
